(** * LiteRT-LM API server: output parsing, process outcome and simulated streaming

    A shallow embedding of [litert-parser.js] ([parseLiteRTOutput],
    [parseStructuredOutput]) and of the two pieces of [server.js] that decide
    what a request returns: the [close] handler of [runLiteRT] and the
    chunking loop of [streamResponse].

    Conventions.
    - A JavaScript string is a [string]: a sequence of code units, each an
      [ascii].  The model covers the strings whose code units are below 256;
      the only white space there is TAB, LF, VT, FF, CR, SPACE and NBSP.
    - An array of strings is a [list string].
    - A [for] loop over an array is a recursion over the remaining elements
      that carries the loop index where the body reads it; [break] returns
      the current state.
    - A regular expression is a value of [Regex.regex], run by a backtracking
      matcher that follows the order in which a JavaScript engine tries the
      alternatives (greedy and lazy quantifiers, leftmost match). *)

From Stdlib Require Import String Ascii List Bool Arith Lia ZArith QArith.
From Stdlib Require Import DecimalString.
Import ListNotations.

Close Scope Q_scope.
Open Scope string_scope.
Open Scope list_scope.
Open Scope bool_scope.
Open Scope nat_scope.

(* ------------------------------------------------------------------ *)
(** ** String primitives of the JavaScript runtime *)

Module JsString.

(** Line feed, the separator of [output.split('\n')]. *)
Definition LF : ascii := "010"%char.

Definition codeUnit (c : ascii) : nat := nat_of_ascii c.

(** White space and line terminators, as removed by [String.prototype.trim]
    and matched by [\s], among the code units below 256. *)
Definition isWhiteSpace (c : ascii) : bool :=
  let n := codeUnit c in
  ((9 <=? n) && (n <=? 13)) || (n =? 32) || (n =? 160).

Definition isDigit (c : ascii) : bool :=
  let n := codeUnit c in (48 <=? n) && (n <=? 57).

(** Truthiness of a string: the empty string is the only falsy one. *)
Definition truthy (s : string) : bool :=
  match s with EmptyString => false | String _ _ => true end.

Fixpoint trimStart (s : string) : string :=
  match s with
  | EmptyString => EmptyString
  | String c s' => if isWhiteSpace c then trimStart s' else s
  end.

Fixpoint trimEnd (s : string) : string :=
  match s with
  | EmptyString => EmptyString
  | String c s' =>
      match trimEnd s' with
      | EmptyString => if isWhiteSpace c then EmptyString else String c EmptyString
      | t => String c t
      end
  end.

(** [s.trim()] *)
Definition trim (s : string) : string := trimEnd (trimStart s).

(** [s.startsWith(p)] is [prefix p s] of the standard library. *)

(** [s.includes(needle)] *)
Fixpoint includes (needle s : string) : bool :=
  prefix needle s ||
  match s with
  | EmptyString => false
  | String _ s' => includes needle s'
  end.

(** [s.indexOf(needle)]: the index of the first occurrence, or -1. *)
Fixpoint indexOf (needle s : string) : Z :=
  if prefix needle s then 0%Z
  else match s with
       | EmptyString => (-1)%Z
       | String _ s' =>
           let r := indexOf needle s' in
           if (r <? 0)%Z then (-1)%Z else (r + 1)%Z
       end.

(** [s.substring(n)]: the string from index [n] on. *)
Fixpoint substringFrom (n : nat) (s : string) : string :=
  match n, s with
  | 0, _ => s
  | S n', String _ s' => substringFrom n' s'
  | S _, EmptyString => EmptyString
  end.

(** [s.substring(start)] for an integer [start]: a negative one counts as 0. *)
Definition substring (start : Z) (s : string) : string :=
  substringFrom (Z.to_nat start) s.

(** [s.substring(0, n)]: the first [n] code units. *)
Fixpoint substringTo (n : nat) (s : string) : string :=
  match n, s with
  | 0, _ => EmptyString
  | S n', String c s' => String c (substringTo n' s')
  | S _, EmptyString => EmptyString
  end.

(** [s.split(sep)] for a separator of one code unit: never empty, and
    [''.split(sep)] is [['']]. *)
Fixpoint split (sep : ascii) (s : string) : list string :=
  match s with
  | EmptyString => [EmptyString]
  | String c s' =>
      if Ascii.eqb c sep then EmptyString :: split sep s'
      else match split sep s' with
           | [] => [String c EmptyString]
           | w :: ws => String c w :: ws
           end
  end.

(** [arr.join(sep)] *)
Fixpoint join (sep : string) (arr : list string) : string :=
  match arr with
  | [] => EmptyString
  | [x] => x
  | x :: rest => x ++ sep ++ join sep rest
  end.

(** [arr.slice(i, j)] for [0 <= i <= j]. *)
Definition slice {A : Type} (i j : nat) (arr : list A) : list A :=
  firstn (j - i) (skipn i arr).

(** [arr.some(p)] is [existsb p arr]; [arr.find(p)] is [find p arr]. *)

(** Two predicates used to state properties: the code unit [c] occurs in
    [s]; [s] is blank (empty or white space only). *)
Fixpoint hasChar (c : ascii) (s : string) : bool :=
  match s with
  | EmptyString => false
  | String d s' => Ascii.eqb d c || hasChar c s'
  end.

Fixpoint allWhite (s : string) : bool :=
  match s with
  | EmptyString => true
  | String c s' => isWhiteSpace c && allWhite s'
  end.

End JsString.

(* ------------------------------------------------------------------ *)
(** ** Regular expressions *)

Module Regex.
Import JsString.

Inductive regex : Type :=
| Eps
| Chr (c : ascii)                     (* a literal character *)
| Class (p : ascii -> bool)           (* [...], \d, \s *)
| Dot                                 (* . *)
| Bol                                 (* ^ *)
| Eol                                 (* $ *)
| Seq (r1 r2 : regex)
| Star (greedy : bool) (r : regex)    (* r* and r*? *)
| Opt (r : regex)                     (* r? *)
| Group (r : regex).                  (* ( r ) *)

Record flags : Type := { ignoreCase : bool; dotAll : bool }.

Definition noFlags : flags := {| ignoreCase := false; dotAll := false |}.
Definition flag_i : flags := {| ignoreCase := true; dotAll := false |}.
Definition flag_s : flags := {| ignoreCase := false; dotAll := true |}.

(** r+ *)
Definition Plus (r : regex) : regex := Seq r (Star true r).

(** r{n} *)
Fixpoint Rep (n : nat) (r : regex) : regex :=
  match n with
  | 0 => Eps
  | S n' => Seq r (Rep n' r)
  end.

(** A run of literal characters. *)
Fixpoint Lit (s : string) : regex :=
  match s with
  | EmptyString => Eps
  | String c s' => Seq (Chr c) (Lit s')
  end.

(** Canonicalisation under the [i] flag.  Every literal of the patterns in
    this program is an ASCII character, and an ASCII literal matches a code
    unit below 256 exactly when their ASCII upper-case forms agree. *)
Definition canonicalize (c : ascii) : ascii :=
  let n := codeUnit c in
  if (97 <=? n) && (n <=? 122) then ascii_of_nat (n - 32) else c.

Definition sameChar (f : flags) (c d : ascii) : bool :=
  if ignoreCase f then Ascii.eqb (canonicalize c) (canonicalize d)
  else Ascii.eqb c d.

(** [.] excludes the line terminators LF and CR unless the [s] flag is set. *)
Definition dotMatches (f : flags) (d : ascii) : bool :=
  dotAll f || negb ((codeUnit d =? 10) || (codeUnit d =? 13)).

(** What remains to be matched: a continuation from the position, the rest
    of the input and the captures closed so far. *)
Definition cont (R : Type) : Type := nat -> string -> list string -> option R.

(** The iterations of a quantifier [r*] or [r*?] whose body is matched by
    [body], followed by [k].  A greedy quantifier tries one more iteration
    before it tries [k]; a lazy one tries [k] first.  An iteration that
    consumes nothing is rejected, as in ECMAScript, so every iteration
    shortens the input and [n], at least its length, bounds the number of
    iterations. *)
Fixpoint starLoop {R : Type} (greedy : bool)
    (body : nat -> string -> list string -> cont R -> option R)
    (k : cont R) (n : nat) (pos : nat) (s : string) (caps : list string)
  : option R :=
  let again :=
    fun _ : unit =>
      match n with
      | 0 => None
      | S n' =>
          body pos s caps
            (fun pos' s' caps' =>
               if String.length s' <? String.length s
               then starLoop greedy body k n' pos' s' caps'
               else None)
      end in
  if greedy then
    match again tt with
    | Some v => Some v
    | None => k pos s caps
    end
  else
    match k pos s caps with
    | Some v => Some v
    | None => again tt
    end.

(** The backtracking matcher, in continuation-passing style.  [pos] is the
    index of the first code unit of [s] in the whole input, [caps] the
    captures closed so far, and [k] what remains to be matched. *)
Fixpoint run {R : Type} (f : flags) (r : regex) (pos : nat) (s : string)
    (caps : list string) (k : cont R) {struct r} : option R :=
  match r with
  | Eps => k pos s caps
  | Chr c =>
      match s with
      | String d s' => if sameChar f c d then k (S pos) s' caps else None
      | EmptyString => None
      end
  | Class p =>
      match s with
      | String d s' => if p d then k (S pos) s' caps else None
      | EmptyString => None
      end
  | Dot =>
      match s with
      | String d s' => if dotMatches f d then k (S pos) s' caps else None
      | EmptyString => None
      end
  | Bol => if pos =? 0 then k pos s caps else None
  | Eol => match s with EmptyString => k pos s caps | String _ _ => None end
  | Seq r1 r2 =>
      run f r1 pos s caps (fun pos' s' caps' => run f r2 pos' s' caps' k)
  | Star greedy r1 =>
      starLoop greedy (run f r1) k (String.length s) pos s caps
  | Opt r1 =>
      match run f r1 pos s caps k with
      | Some v => Some v
      | None => k pos s caps
      end
  | Group r1 =>
      run f r1 pos s caps
        (fun pos' s' caps' => k pos' s' (caps' ++ [substringTo (pos' - pos) s]))
  end.

(** One successful match: where it starts, where it ends, its captures. *)
Record matchResult : Type :=
  { matchStart : nat; matchEnd : nat; captures : list string }.

(** Try the pattern at [pos], then at every later position. *)
Fixpoint searchFrom (f : flags) (r : regex) (pos : nat) (s : string)
  : option matchResult :=
  match run f r pos s []
          (fun e _ caps => Some {| matchStart := pos; matchEnd := e;
                                   captures := caps |}) with
  | Some m => Some m
  | None =>
      match s with
      | EmptyString => None
      | String _ s' => searchFrom f r (S pos) s'
      end
  end.

(** [s.match(re)] for a pattern without the [g] flag. *)
Definition exec (f : flags) (r : regex) (s : string) : option matchResult :=
  searchFrom f r 0 s.

Definition test (f : flags) (r : regex) (s : string) : bool :=
  match exec f r s with Some _ => true | None => false end.

(** [s.replace(re, repl)] for a pattern without the [g] flag and a
    replacement text without [$] patterns. *)
Definition replace (f : flags) (r : regex) (repl s : string) : string :=
  match exec f r s with
  | Some m => substringTo (matchStart m) s ++ repl ++ substringFrom (matchEnd m) s
  | None => s
  end.

End Regex.

(* ------------------------------------------------------------------ *)
(** ** litert-parser.js *)

Module Parser.
Import JsString Regex.

(** The one-character string ["\n"]. *)
Definition nl : string := String LF EmptyString.

(** Common response markers used by different LiteRT-LM models. *)
Definition responseMarkers : list string :=
  [ "Response:"; "Generated text:"; "Output:"; "Assistant:";
    "Model output:"; "Generation:"; ("model" ++ nl)%string ].

(** End markers that indicate we should stop collecting the response. *)
Definition endMarkers : list string :=
  [ "Prefill:"; "Decode:"; "Peak memory"; "Tokens/sec"; "Performance:";
    "Benchmark results:"; "---"; "==="; "I0000"; "W0000"; "E0000"; "F0000" ].

Definition isSeverity (c : ascii) : bool :=
  Ascii.eqb c "I" || Ascii.eqb c "W" || Ascii.eqb c "E" || Ascii.eqb c "F".

(** [/^[IWEF]\d{4}/] *)
Definition logPrefix : regex :=
  Seq Bol (Seq (Class isSeverity) (Rep 4 (Class isDigit))).

(** The condition of the log-skipping loop: the line is where the actual
    output starts. *)
Definition startsOutput (line : string) : bool :=
  negb (test noFlags logPrefix line)
  && negb (includes "INFO:" line)
  && negb (includes "WARNING:" line)
  && truthy (trim line).

(** [let startIndex = 0; for (i ...) if (...) { startIndex = i; break; }]:
    when the loop runs off the end, [startIndex] keeps its initial 0. *)
Fixpoint skipLogs (i : nat) (rest : list string) : nat :=
  match rest with
  | [] => 0
  | line :: rest' => if startsOutput line then i else skipLogs (S i) rest'
  end.

Definition startIndex (lines : list string) : nat := skipLogs 0 lines.

(** The three variables the main loop updates. *)
Record scanState : Type :=
  { response : string; inResponse : bool; foundResponseMarker : bool }.

Definition initialState : scanState :=
  {| response := EmptyString; inResponse := false;
     foundResponseMarker := false |}.

(** [endMarkers.some(marker => line.includes(marker))] *)
Definition hitsEndMarker (line : string) : bool :=
  existsb (fun marker => includes marker line) endMarkers.

(** [for (const marker of responseMarkers) if (line.includes(marker)) {...; break}] *)
Fixpoint checkMarkers (markers : list string) (line : string) (st : scanState)
  : scanState :=
  match markers with
  | [] => st
  | marker :: more =>
      if includes marker line then
        let markerIndex := indexOf marker line in
        let afterMarker :=
          trim (substring (markerIndex + Z.of_nat (String.length marker)) line) in
        {| response := if truthy afterMarker then afterMarker else response st;
           inResponse := true;
           foundResponseMarker := true |}
      else checkMarkers more line st
  end.

(** [if (inResponse && i > 0) { ... }]: the collecting part of the loop body. *)
Definition collectLine (i : nat) (line : string) (st : scanState) : scanState :=
  let trimmedLine := trim line in
  if inResponse st && (0 <? i) then
    if negb (truthy (response st)) && negb (truthy trimmedLine) then st
    else if truthy trimmedLine then
      let r := if truthy (response st) then (response st ++ nl)%string
               else response st in
      {| response := (r ++ line)%string;
         inResponse := inResponse st;
         foundResponseMarker := foundResponseMarker st |}
    else st
  else st.

(** The main loop, at index [i] with [rest] the lines from [i] on. *)
Fixpoint scan (i : nat) (rest : list string) (st : scanState) : scanState :=
  match rest with
  | [] => st
  | line :: rest' =>
      if hitsEndMarker line && inResponse st then st
      else scan (S i) rest' (collectLine i line (checkMarkers responseMarkers line st))
  end.

(** The loop that fills [responseLines] when no marker was found. *)
Fixpoint collectUntilEnd (rest : list string) : list string :=
  match rest with
  | [] => []
  | line :: rest' =>
      if hitsEndMarker line then []
      else if truthy (trim line) then line :: collectUntilEnd rest'
      else collectUntilEnd rest'
  end.

(** [/\nPrefill:.*$/s] and its three siblings. *)
Definition perfPattern (label : string) : regex :=
  Seq (Lit (nl ++ label)) (Seq (Star true Dot) Eol).

Definition perfPatterns : list regex :=
  [ perfPattern "Prefill:"; perfPattern "Decode:";
    perfPattern "Peak memory"; perfPattern "Tokens/sec" ].

(** The labels of [perfPatterns], in the same order. *)
Definition perfLabels : list string :=
  [ "Prefill:"; "Decode:"; "Peak memory"; "Tokens/sec" ].

Definition noResponse : string := "No response generated".

Definition parseLiteRTOutput (output : string) : string :=
  let lines := split LF output in
  let start := startIndex lines in
  let st := scan start (skipn start lines) initialState in
  let raw :=
    if negb (foundResponseMarker st) && (start <? List.length lines)
    then join nl (collectUntilEnd (skipn start lines))
    else response st in
  let cleaned :=
    fold_left (fun resp pattern => trim (replace flag_s pattern EmptyString resp))
              perfPatterns (trim raw) in
  if truthy cleaned then cleaned else noResponse.

(** A JavaScript number, as far as this program produces one: the value of a
    decimal literal, kept exact (the rounding to a binary64 is not modelled),
    or NaN. *)
Inductive JsNumber : Type :=
| NaN
| Num (q : Q).

(** Read a run of decimal digits: the value accumulated on [acc], how many
    digits were read, and what follows them. *)
Fixpoint readDigits (acc : N) (count : nat) (s : string) : N * nat * string :=
  match s with
  | EmptyString => (acc, count, s)
  | String c s' =>
      if isDigit c
      then readDigits (10 * acc + N.of_nat (codeUnit c - 48))%N (S count) s'
      else (acc, count, s)
  end.

(** [parseFloat] on the texts the capture group of the metric patterns
    produces: digits, an optional point, optional digits.  No other text reaches it in
    this program; such a text is mapped to [NaN] here. *)
Definition parseFloat (s : string) : JsNumber :=
  let '(whole, n1, rest) := readDigits 0%N 0 s in
  if n1 =? 0 then NaN
  else match rest with
       | EmptyString => Num (Qmake (Z.of_N whole) 1)
       | String c rest' =>
           if Ascii.eqb c "."
           then let '(all, n2, rest2) := readDigits whole 0 rest' in
                match rest2 with
                | EmptyString => Num (Qmake (Z.of_N all) (Z.to_pos (10 ^ Z.of_nat n2)))
                | String _ _ => NaN
                end
           else NaN
       end.

(** The capture group: one or more digits, an optional point, any number
    of digits. *)
Definition numberGroup : regex :=
  Group (Seq (Plus (Class isDigit)) (Seq (Opt (Chr ".")) (Star true (Class isDigit)))).

(** The patterns of the prefill and decode rates: the label, a lazy run of
    any characters, the capture group, optional white space and
    [tokens/sec]; matched under the [i] flag. *)
Definition ratePattern (label : string) : regex :=
  Seq (Lit label)
    (Seq (Star false Dot)
       (Seq numberGroup
          (Seq (Star true (Class isWhiteSpace)) (Lit "tokens/sec")))).

(** The pattern of the peak memory: as above with [MB] for the unit. *)
Definition memoryPattern : regex :=
  Seq (Lit "Peak memory")
    (Seq (Star false Dot)
       (Seq numberGroup (Seq (Star true (Class isWhiteSpace)) (Lit "MB")))).

(** The [metrics] object: a key that was never assigned is absent. *)
Record Metrics : Type :=
  { prefillTokensPerSec : option JsNumber;
    decodeTokensPerSec : option JsNumber;
    peakMemoryMB : option JsNumber }.

Definition noMetrics : Metrics :=
  {| prefillTokensPerSec := None; decodeTokensPerSec := None;
     peakMemoryMB := None |}.

(** [match[1]] of a successful match. *)
Definition group1 (m : matchResult) : string := nth 0 (captures m) EmptyString.

(** What one line assigns to a key: [Some v] when the line passes the
    [includes] test and the pattern matches, [None] when it assigns nothing. *)
Definition readMetric (label : string) (pattern : regex) (line : string)
  : option JsNumber :=
  if includes label line then
    match exec flag_i pattern line with
    | Some m => Some (parseFloat (group1 m))
    | None => None
    end
  else None.

Definition assign (new old : option JsNumber) : option JsNumber :=
  match new with Some v => Some v | None => old end.

(** The body of [for (const line of lines)] in [parseStructuredOutput]. *)
Definition metricsStep (m : Metrics) (line : string) : Metrics :=
  {| prefillTokensPerSec :=
       assign (readMetric "Prefill:" (ratePattern "Prefill:") line)
              (prefillTokensPerSec m);
     decodeTokensPerSec :=
       assign (readMetric "Decode:" (ratePattern "Decode:") line)
              (decodeTokensPerSec m);
     peakMemoryMB :=
       assign (readMetric "Peak memory" memoryPattern line) (peakMemoryMB m) |}.

(** The object [parseStructuredOutput] returns; its key [response] is named
    [answer] here, [response] being the parser's local variable above. *)
Record StructuredOutput : Type :=
  { answer : string; metrics : Metrics }.

Definition parseStructuredOutput (output : string) : StructuredOutput :=
  {| answer := parseLiteRTOutput output;
     metrics := fold_left metricsStep (split LF output) noMetrics |}.

(** *** Vocabulary for the properties *)

(** The line holds one of the response markers. *)
Definition mentionsMarker (line : string) : bool :=
  existsb (fun marker => includes marker line) responseMarkers.

(** [line.trim()] is truthy. *)
Definition nonBlank (line : string) : bool := truthy (trim line).

(** The state while collecting, with [acc] collected so far. *)
Definition collecting (acc : string) : scanState :=
  {| response := acc; inResponse := true; foundResponseMarker := true |}.

(** [if (response) response += '\n'; response += line] *)
Definition appendLine (resp line : string) : string :=
  ((if truthy resp then resp ++ nl else resp) ++ line)%string.

(** A text made of non-blank lines only: lines without line feed, none of
    them blank, joined by line feeds.  The empty text is the join of no
    line. *)
Definition cleanLines (ls : list string) : Prop :=
  forall l, In l ls -> hasChar LF l = false /\ nonBlank l = true.

Definition noBlankLines (s : string) : Prop :=
  exists ls, s = join nl ls /\ cleanLines ls.

(** The three categories of metrics, what a line assigns to each, and the
    key of the result that holds it. *)
Inductive Category : Type := Prefill | Decode | PeakMemory.

Definition reading (c : Category) (line : string) : option JsNumber :=
  match c with
  | Prefill => readMetric "Prefill:" (ratePattern "Prefill:") line
  | Decode => readMetric "Decode:" (ratePattern "Decode:") line
  | PeakMemory => readMetric "Peak memory" memoryPattern line
  end.

Definition field (c : Category) (m : Metrics) : option JsNumber :=
  match c with
  | Prefill => prefillTokensPerSec m
  | Decode => decodeTokensPerSec m
  | PeakMemory => peakMemoryMB m
  end.

End Parser.

(* ------------------------------------------------------------------ *)
(** ** server.js *)

Module Server.
Import JsString Parser.

(** What the spawned process does, as [runLiteRT] observes it: it fails to
    start ([error] event, with the error's message), or it closes with an
    exit code after writing [output] to stdout and [error] to stderr.  An
    exit by signal (code [null]) is not modelled. *)
Inductive ProcessRun : Type :=
| StartFailure (message : string)
| Closed (code : Z) (output error : string).

(** How the promise returned by [runLiteRT] settles: [Rejected msg] stands
    for [reject(new Error(msg))]. *)
Inductive Settled : Type :=
| Resolved (value : string)
| Rejected (message : string).

(** The text of an integer in a template literal. *)
Definition showCode (code : Z) : string := NilZero.string_of_int (Z.to_int code).

Definition unknownFatal : string := "Unknown fatal error".
Definition fallbackGreeting : string := "Hello! How can I help you today?".

Definition runLiteRT (run : ProcessRun) : Settled :=
  match run with
  | StartFailure message =>
      Rejected ("Failed to start LiteRT process: " ++ message)
  | Closed code output error =>
      if negb (code =? 0)%Z then
        if includes "Check failure" error || includes "F0000" error then
          let errorLines := split LF error in
          let fatalError :=
            match find (fun line => includes "F0000" line) errorLines with
            | Some line => if truthy line then line else unknownFatal
            | None => unknownFatal
            end in
          Rejected ("LiteRT fatal error: " ++ fatalError)
        else
          Rejected ("LiteRT process exited with code " ++ showCode code
                    ++ ": " ++ error)
      else
        let response := parseLiteRTOutput output in
        if negb (truthy response) || (response =? noResponse)%string then
          let stderrResponse := parseLiteRTOutput error in
          if truthy stderrResponse && negb (stderrResponse =? noResponse)%string
          then Resolved stderrResponse
          else Resolved fallbackGreeting
        else Resolved response
  end.

(** [const chunkSize = 5] *)
Definition chunkSize : nat := 5.

(** The loop of [streamResponse], [for (let i = ...; i < words.length;
    i += chunkSize)], from index [i]; the result lists the chunks in the
    order they are yielded.  Each iteration moves [i] forward, so
    [length words] iterations are always enough: that is the [fuel]. *)
Fixpoint streamLoop (fuel : nat) (words : list string) (i : nat) : list string :=
  match fuel with
  | 0 => []
  | S fuel' =>
      if i <? List.length words then
        let chunk := join " " (slice i (i + chunkSize) words) in
        let trailing :=
          if i + chunkSize <? List.length words then " " else EmptyString in
        (chunk ++ trailing)%string :: streamLoop fuel' words (i + chunkSize)
      else []
  end.

(** The chunks [streamResponse] yields once [runLiteRT] has resolved with
    [fullResponse]; the pause between two chunks is not modelled. *)
Definition streamResponse (fullResponse : string) : list string :=
  let words := split " "%char fullResponse in
  streamLoop (List.length words) words 0.

(** [totalTokens += chunk] over the chunks, as the streaming endpoint does. *)
Definition totalTokens (chunks : list string) : string :=
  fold_left (fun acc chunk => (acc ++ chunk)%string) chunks EmptyString.

(** *** Vocabulary for the properties *)

(** A parse result the close handler accepts: truthy and not the sentinel. *)
Definition usable (r : string) : bool :=
  truthy r && negb (r =? noResponse)%string.

(** The [k]-th window of five words, and the chunk made of it: the words
    joined by single spaces, and one more space unless the window reaches
    the last word. *)
Definition window (words : list string) (k : nat) : list string :=
  firstn 5 (skipn (5 * k) words).

Definition chunkAt (words : list string) (k : nat) : string :=
  let trailing :=
    if 5 * k + 5 <? List.length words then " " else EmptyString in
  (join " " (window words k) ++ trailing)%string.

End Server.

(* ------------------------------------------------------------------ *)
(** ** The streaming synthesizer as the specification words it *)

Module Spec.
Import JsString.

(** Split on white space into words: the maximal runs of characters that
    are not white space. *)
Fixpoint wordsFrom (current : string) (s : string) : list string :=
  match s with
  | EmptyString => if truthy current then [current] else []
  | String c s' =>
      if isWhiteSpace c
      then (if truthy current then [current] else []) ++ wordsFrom EmptyString s'
      else wordsFrom (current ++ String c EmptyString) s'
  end.

Definition whitespaceWords (s : string) : list string := wordsFrom EmptyString s.

(** Consecutive windows of [size] words. *)
Fixpoint windows (fuel size : nat) (ws : list string) : list (list string) :=
  match fuel, ws with
  | 0, _ => []
  | _, [] => []
  | S fuel', _ => firstn size ws :: windows fuel' size (skipn size ws)
  end.

(** A trailing space on every chunk except the last. *)
Fixpoint spaced (chunks : list string) : list string :=
  match chunks with
  | [] => []
  | [c] => [c]
  | c :: rest => (c ++ " ")%string :: spaced rest
  end.

Definition synthesize (answer : string) (chunkSize : nat) : list string :=
  let ws := whitespaceWords answer in
  spaced (map (join " ") (windows (List.length ws) chunkSize ws)).

(** The extraction property as the specification states it: wherever a
    line equal to a response marker is followed by non-blank lines and then
    by a line with an end marker, the answer is those lines, joined and
    trimmed, whatever comes before the marker line.  The lines in between
    are read as holding no marker of either kind themselves. *)
Definition markerBlockExtracted : Prop :=
  forall (output : string) (before : list string) (m : string)
         (body : list string) (e : string) (rest : list string),
    split LF output = before ++ m :: body ++ e :: rest ->
    In m Parser.responseMarkers ->
    body <> [] ->
    (forall l, In l body ->
       Parser.nonBlank l = true /\ Parser.mentionsMarker l = false
       /\ Parser.hitsEndMarker l = false) ->
    Parser.hitsEndMarker e = true ->
    Parser.parseLiteRTOutput output = trim (join Parser.nl body).

(** Blank lines inside the response body as the specification states it:
    between the first and the last non-blank line of the body, a blank
    line stays in the answer as an empty line. *)
Definition interiorBlankPreserved : Prop :=
  forall (output m first : string) (middle : list string) (last e : string)
         (rest : list string),
    split LF output = m :: first :: middle ++ last :: e :: rest ->
    In m Parser.responseMarkers ->
    Parser.nonBlank first = true ->
    Parser.nonBlank last = true ->
    (forall l, In l (first :: middle ++ [last]) ->
       Parser.mentionsMarker l = false /\ Parser.hitsEndMarker l = false) ->
    Parser.hitsEndMarker e = true ->
    Parser.parseLiteRTOutput output =
    trim (join Parser.nl
            (first
             :: map (fun l => if Parser.nonBlank l then l else EmptyString) middle
             ++ [last])).

(** The fatal-error property as the specification states it: a failed run
    whose stderr holds a fatal signature is rejected with a message that
    carries the first stderr line holding the fatal prefix. *)
Definition fatalCarriesFatalLine : Prop :=
  forall (code : Z) (output error : string),
    code <> 0%Z ->
    includes "Check failure" error || includes "F0000" error = true ->
    exists line,
      find (fun l => includes "F0000" l) (split LF error) = Some line
      /\ Server.runLiteRT (Server.Closed code output error)
         = Server.Rejected ("LiteRT fatal error: " ++ line).

(** Metrics, first match per category wins: the value of the first line
    that assigns one. *)
Fixpoint firstMatch {A : Type} (f : string -> option A) (lines : list string)
  : option A :=
  match lines with
  | [] => None
  | line :: rest =>
      match f line with
      | Some v => Some v
      | None => firstMatch f rest
      end
  end.

(** Last match per category wins: the value of the last line that assigns
    one. *)
Fixpoint lastMatch {A : Type} (f : string -> option A) (lines : list string)
  : option A :=
  match lines with
  | [] => None
  | line :: rest =>
      match lastMatch f rest with
      | Some v => Some v
      | None => f line
      end
  end.

End Spec.

(* ------------------------------------------------------------------ *)
(** ** server.js: configuration, authentication, prompt and endpoint *)

Module Api.
Import JsString Parser Server.

(** [process.env], after the optional [.env] file has been loaded: a
    variable is a string or is not set. *)
Definition Env : Type := string -> option string.

(** [value || fallback] for an environment variable: the fallback is taken
    when the variable is not set or is the empty string. *)
Definition orDefault (value : option string) (fallback : string) : string :=
  match value with
  | Some v => if truthy v then v else fallback
  | None => fallback
  end.

(** [process.env.PORT || 3000] is the text of the variable or the number
    3000. *)
Inductive PortValue : Type :=
| PortText (text : string)
| PortNumber (n : nat).

Record Config : Type :=
  { port : PortValue;
    litert_binary : string;
    model_path : string;
    backend : string;
    api_key : string;
    debug : bool }.

(** The object [CONFIG], as built from the environment. *)
Definition CONFIG (env : Env) : Config :=
  {| port := match env "PORT" with
             | Some v => if truthy v then PortText v else PortNumber 3000
             | None => PortNumber 3000
             end;
     litert_binary := orDefault (env "LITERT_BINARY") "./litert_lm_main";
     model_path := orDefault (env "MODEL_PATH") "gemma-3n-e4b-it-int4.litertlm";
     backend := orDefault (env "BACKEND") "cpu";
     api_key := orDefault (env "API_KEY") "sk-litert-demo-key";
     debug := match env "DEBUG" with
              | Some v => (v =? "true")%string
              | None => false
              end |}.

(** What the middleware does with a request: it calls [next()], or it
    answers 401 with [{ error }]. *)
Inductive AuthOutcome : Type :=
| Next
| Unauthorized (error : string).

(** [authenticateAPIKey], from the configuration and the request's
    [authorization] header ([None] when the header is absent). *)
Definition authenticateAPIKey (config : Config) (authorization : option string)
  : AuthOutcome :=
  if truthy (api_key config) then
    match authorization with
    | None => Unauthorized "Missing or invalid API key"
    | Some authHeader =>
        if negb (truthy authHeader) || negb (prefix "Bearer " authHeader)
        then Unauthorized "Missing or invalid API key"
        else
          let providedKey := substring 7 authHeader in
          if negb (providedKey =? api_key config)%string
          then Unauthorized "Invalid API key"
          else Next
    end
  else Next.

(** An element of [messages] other than [null].  [role] is its role when
    that is a string; a role that is absent or not a string (also the role
    of an element that is no object) meets no case of the [switch] and
    differs from ['assistant'], as a string outside the three does, and is
    held as such a string.  [content] is the text the template literal
    gives the content: the content itself when it is a string. *)
Record Message : Type := { role : string; content : string }.

(** What one turn of the [switch] appends to the prompt; a role other
    than the three cases appends nothing. *)
Definition renderMessage (message : Message) : string :=
  if (role message =? "system")%string
  then ("System: " ++ content message ++ nl ++ nl)%string
  else if (role message =? "user")%string
  then ("User: " ++ content message ++ nl ++ nl)%string
  else if (role message =? "assistant")%string
  then ("Assistant: " ++ content message ++ nl ++ nl)%string
  else EmptyString.

(** What the [for] loop of [messagesToPrompt] builds from messages none
    of which is [null], from the prompt built so far. *)
Definition renderFrom (prompt : string) (messages : list Message) : string :=
  fold_left (fun p message => (p ++ renderMessage message)%string) messages prompt.

(** A call returns a value or throws a [TypeError] with a message. *)
Inductive Completion (A : Type) : Type :=
| Returns (value : A)
| ThrowsTypeError (message : string).
Arguments Returns {A} value.
Arguments ThrowsTypeError {A} message.

(** The messages V8 gives the [TypeError] for reading [.role] of [null]
    and of [undefined]. *)
Definition nullRoleError : string :=
  "Cannot read properties of null (reading 'role')".
Definition undefinedRoleError : string :=
  "Cannot read properties of undefined (reading 'role')".

(** The [for] loop of [messagesToPrompt] over the elements of the array,
    [None] standing for [null]: [switch (message.role)] throws at the
    first [null]. *)
Fixpoint renderElements (prompt : string) (messages : list (option Message))
  : Completion string :=
  match messages with
  | [] => Returns prompt
  | None :: _ => ThrowsTypeError nullRoleError
  | Some message :: rest =>
      renderElements (prompt ++ renderMessage message) rest
  end.

(** [messagesToPrompt]: after the loop, reading [.role] of
    [messages[messages.length - 1]] throws when the array is empty. *)
Definition messagesToPrompt (messages : list (option Message))
  : Completion string :=
  match renderElements EmptyString messages with
  | ThrowsTypeError message => ThrowsTypeError message
  | Returns prompt =>
      match nth_error messages (List.length messages - 1) with
      | None => ThrowsTypeError undefinedRoleError
      | Some None => ThrowsTypeError nullRoleError
      | Some (Some lastMessage) =>
          let prompt :=
            if negb (role lastMessage =? "assistant")%string
            then (prompt ++ "Assistant:")%string
            else prompt in
          Returns (trim prompt)
      end
  end.

(** The argument vector of the spawned process. *)
Definition spawnArgs (config : Config) (prompt : string) : list string :=
  [ "--backend"; backend config; "--model_path"; model_path config;
    "--input_prompt"; prompt ].

(** The world outside: what running a binary with an argument vector
    leads to. *)
Definition Spawn : Type := string -> list string -> ProcessRun.

(** [runLiteRT(prompt, options)] against a given world; [options] is never
    read. *)
Definition runLiteRTFor (config : Config) (spawn : Spawn) (prompt : string)
  : Settled :=
  runLiteRT (spawn (litert_binary config) (spawnArgs config prompt)).

(** [Math.ceil(n / 4)] for a length [n]. *)
Definition ceilQuarter (n : nat) : nat := (n + 3) / 4.

Record Usage : Type :=
  { prompt_tokens : nat; completion_tokens : nat; total_tokens : nat }.

(** The [usage] object of a completion. *)
Definition usage (prompt response : string) : Usage :=
  {| prompt_tokens := ceilQuarter (String.length prompt);
     completion_tokens := ceilQuarter (String.length response);
     total_tokens := ceilQuarter (String.length prompt + String.length response) |}.

(** The body of a chat request, as far as the handler reads it:
    [messages] is [None] when the key is absent or not an array and holds
    the elements of the array otherwise ([None] for [null]), [model] is
    [None] when the key is absent, [stream] is the truthiness of the
    key. *)
Record ChatRequest : Type :=
  { messages : option (list (option Message));
    model : option string;
    stream : bool }.

(** The JSON bodies the endpoint sends. *)
Inductive JsonBody : Type :=
| AuthError (error : string)
| ErrorBody (message type : string)
| ChatCompletion (id : string) (created : nat) (model : string)
                 (content : string) (usage : Usage).

(** The payloads written to an event stream: a content chunk, the final
    chunk with [finish_reason: 'stop'], the [[DONE]] marker. *)
Inductive SseData : Type :=
| ChunkData (id : string) (created : nat) (model : string) (content : string)
| StopData (id : string) (created : nat) (model : string)
| DoneData.

(** The calls made on [res], in order. *)
Inductive ResCall : Type :=
| Status (code : nat)
| Json (body : JsonBody)
| WriteHead (code : nat) (headers : list (string * string))
| Write (data : SseData)
| End.

Definition eventStreamHeaders : list (string * string) :=
  [ ("Content-Type", "text/event-stream"); ("Cache-Control", "no-cache");
    ("Connection", "keep-alive") ].

(** The writes of the streaming branch: one per chunk, each with its own
    reading of the clock, then the final chunk, the marker and [end]. *)
Definition streamCalls (id : string) (clock : nat -> nat) (modelName : string)
    (chunks : list string) : list ResCall :=
  map (fun kc => Write (ChunkData id (clock (fst kc)) modelName (snd kc)))
      (combine (seq 0 (List.length chunks)) chunks)
  ++ [ Write (StopData id (clock (List.length chunks)) modelName);
       Write DoneData; End ].

(** The handler of [POST /v1/chat/completions], after the middleware.
    [randomHex] is the text of the sixteen random bytes, [clock k] the
    [k]-th value of [Math.floor(Date.now() / 1000)] the handler reads.
    A rejected run or a thrown error ends in the [catch] block, which
    answers with the error's message. *)
Definition chatCompletions (config : Config) (spawn : Spawn)
    (randomHex : string) (clock : nat -> nat) (request : ChatRequest)
  : list ResCall :=
  let modelName := match model request with Some m => m | None => "litert-lm" end in
  let invalid :=
    [ Status 400; Json (ErrorBody "Messages array is required" "invalid_request_error") ] in
  match messages request with
  | None => invalid
  | Some [] => invalid
  | Some msgs =>
      match messagesToPrompt msgs with
      | ThrowsTypeError message =>
          [ Status 500; Json (ErrorBody message "internal_error") ]
      | Returns prompt =>
          let requestId := ("chatcmpl-" ++ randomHex)%string in
          if stream request then
            WriteHead 200 eventStreamHeaders
            :: match runLiteRTFor config spawn prompt with
               | Rejected message =>
                   [ Status 500; Json (ErrorBody message "internal_error") ]
               | Resolved fullResponse =>
                   streamCalls requestId clock modelName (streamResponse fullResponse)
               end
          else
            match runLiteRTFor config spawn prompt with
            | Rejected message =>
                [ Status 500; Json (ErrorBody message "internal_error") ]
            | Resolved response =>
                [ Json (ChatCompletion requestId (clock 0) modelName response
                                       (usage prompt response)) ]
            end
      end
  end.

(** The route: the middleware, then the handler. *)
Definition postChatCompletions (config : Config) (spawn : Spawn)
    (randomHex : string) (clock : nat -> nat)
    (authorization : option string) (request : ChatRequest) : list ResCall :=
  match authenticateAPIKey config authorization with
  | Unauthorized error => [ Status 401; Json (AuthError error) ]
  | Next => chatCompletions config spawn randomHex clock request
  end.

(** *** Vocabulary for the properties *)

(** The text a client assembles from an event stream: the contents of the
    chunks, in order. *)
Fixpoint streamedText (calls : list ResCall) : string :=
  match calls with
  | [] => EmptyString
  | Write (ChunkData _ _ _ content) :: rest => (content ++ streamedText rest)%string
  | _ :: rest => streamedText rest
  end.

(** The role is one of the three the [switch] knows. *)
Definition knownRole (r : string) : bool :=
  (r =? "system")%string || (r =? "user")%string || (r =? "assistant")%string.

(** A configuration, a conversation and a world for the examples. *)
Definition demoConfig : Config := CONFIG (fun _ => None).

Definition demoMessages : list Message :=
  [ {| role := "system"; content := "Be brief. " |};
    {| role := "tool"; content := "ignored" |};
    {| role := "user"; content := "Capital of France?" |} ].

Definition demoSpawn : Spawn :=
  fun _ _ => Closed 0 ("Paris is the capital of France, a city on the Seine.") EmptyString.

End Api.

(* ------------------------------------------------------------------ *)
(** ** What a pattern matches *)

Module RegexSemantics.
Import JsString Regex.

(** [Matches f r pos w rest caps caps']: at index [pos] of the input, with
    [rest] behind it, the pattern [r] can take the text [w], and doing so
    turns the captures [caps] into [caps'].  This is the set of matches the
    matcher chooses from, without the order in which it tries them. *)
Inductive Matches (f : flags)
  : regex -> nat -> string -> string -> list string -> list string -> Prop :=
| MEps pos rest caps :
    Matches f Eps pos EmptyString rest caps caps
| MChr c d pos rest caps :
    sameChar f c d = true ->
    Matches f (Chr c) pos (String d EmptyString) rest caps caps
| MClass p d pos rest caps :
    p d = true ->
    Matches f (Class p) pos (String d EmptyString) rest caps caps
| MDot d pos rest caps :
    dotMatches f d = true ->
    Matches f Dot pos (String d EmptyString) rest caps caps
| MBol rest caps :
    Matches f Bol 0 EmptyString rest caps caps
| MEol pos caps :
    Matches f Eol pos EmptyString EmptyString caps caps
| MSeq r1 r2 pos w1 w2 rest c0 c1 c2 :
    Matches f r1 pos w1 (w2 ++ rest) c0 c1 ->
    Matches f r2 (pos + String.length w1) w2 rest c1 c2 ->
    Matches f (Seq r1 r2) pos (w1 ++ w2) rest c0 c2
| MStarEnd g r pos rest caps :
    Matches f (Star g r) pos EmptyString rest caps caps
| MStarMore g r pos w1 w2 rest c0 c1 c2 :
    w1 <> EmptyString ->
    Matches f r pos w1 (w2 ++ rest) c0 c1 ->
    Matches f (Star g r) (pos + String.length w1) w2 rest c1 c2 ->
    Matches f (Star g r) pos (w1 ++ w2) rest c0 c2
| MOptSome r pos w rest c0 c1 :
    Matches f r pos w rest c0 c1 ->
    Matches f (Opt r) pos w rest c0 c1
| MOptNone r pos rest caps :
    Matches f (Opt r) pos EmptyString rest caps caps
| MGroup r pos w rest c0 c1 :
    Matches f r pos w rest c0 c1 ->
    Matches f (Group r) pos w rest c0 (c1 ++ [w]).

(** The pattern holds no capture group. *)
Fixpoint groupFree (r : regex) : bool :=
  match r with
  | Seq r1 r2 => groupFree r1 && groupFree r2
  | Star _ r1 => groupFree r1
  | Opt r1 => groupFree r1
  | Group _ => false
  | _ => true
  end.

(** Every character of [s] passes [p]. *)
Fixpoint allChars (p : ascii -> bool) (s : string) : bool :=
  match s with
  | EmptyString => true
  | String c s' => p c && allChars p s'
  end.

(** The texts of the capture group of the metric patterns: digits, then
    nothing or a point, then digits or nothing. *)
Definition numberText (w : string) : Prop :=
  exists whole point fraction,
    w = (whole ++ point ++ fraction)%string
    /\ whole <> EmptyString
    /\ allChars isDigit whole = true
    /\ (point = EmptyString \/ point = ".")
    /\ allChars isDigit fraction = true.

End RegexSemantics.

(* ------------------------------------------------------------------ *)
(** ** Shapes of process output *)

Module OutputShapes.
Import JsString Parser.

(** What follows the body of an output without markers: nothing, or lines
    that start with one holding an end marker. *)
Definition closesBody (tail : list string) : bool :=
  match tail with
  | [] => true
  | e :: _ => hitsEndMarker e
  end.

(** The first line of a text. *)
Definition firstLine (s : string) : string := hd EmptyString (split LF s).

(** The text [l] is a part of one of the lines [src]. *)
Definition partOfSomeLine (src : list string) (l : string) : Prop :=
  exists l0, In l0 src /\ includes l l0 = true.

(** A non-blank line that is a part of one of the lines [src]. *)
Definition fromInput (src : list string) (l : string) : Prop :=
  hasChar LF l = false /\ nonBlank l = true /\ partOfSomeLine src l.

(** A text made of such lines. *)
Definition madeOf (src : list string) (s : string) : Prop :=
  exists ls, s = join nl ls /\ forall l, In l ls -> fromInput src l.

(** Log lines, two lines of plain text around an empty one, a separator
    and a trailer. *)
Definition plainOutput : string :=
  ("I0001 00:00:00 init" ++ nl ++ "INFO: model loaded" ++ nl
   ++ "The capital is Paris." ++ nl ++ nl ++ "  It lies on the Seine." ++ nl
   ++ "---" ++ nl ++ "bye")%string.

End OutputShapes.

(* ------------------------------------------------------------------ *)
(** ** The two tests a line passes to count for a metric *)

Module MetricTests.
Import JsString Regex Parser.

(** The text of the [line.includes(...)] test of a category, compared as
    written. *)
Definition labelOf (c : Category) : string :=
  match c with
  | Prefill => "Prefill:"
  | Decode => "Decode:"
  | PeakMemory => "Peak memory"
  end.

(** The pattern of the [line.match(...)] test of a category, matched
    under the [i] flag. *)
Definition patternOf (c : Category) : regex :=
  match c with
  | Prefill => ratePattern "Prefill:"
  | Decode => ratePattern "Decode:"
  | PeakMemory => memoryPattern
  end.

(** Two prefill lines, the second with its label in lower case. *)
Definition mixedCasePrefills : string :=
  ("Prefill: 1 tokens/sec" ++ nl ++ "prefill: 2 tokens/sec")%string.

End MetricTests.

(* ------------------------------------------------------------------ *)
(** ** Sample process outputs *)

Module Scenarios.
Import JsString Parser.

(** A log line, an answer on the marker line, a metrics line. *)
Definition parisOutput : string :=
  ("I0001 00:00:00 init" ++ nl
   ++ "Response: Paris is the capital of France." ++ nl
   ++ "Prefill: 120 tokens/sec" ++ nl)%string.

Definition parisAnswer : string := "Paris is the capital of France.".

(** Nothing but log lines. *)
Definition logsOnly : string :=
  ("I0001 00:00:00 init" ++ nl ++ "I0002 00:00:01 model loaded")%string.

(** A marker on the first line, two lines of answer, an end marker. *)
Definition helloOutput : string :=
  ("Response:" ++ nl ++ "Hello there," ++ nl ++ "  how are you?" ++ nl
   ++ "Prefill: 12 tokens/sec")%string.

(** An inline answer closed by a separator, then a second marker block. *)
Definition twoBlocks : string :=
  ("Output: foo" ++ nl ++ "---" ++ nl
   ++ "Response:" ++ nl ++ "bar" ++ nl ++ "---")%string.

(** An answer with an empty line between its two paragraphs. *)
Definition twoParagraphs : string :=
  ("Response:" ++ nl ++ "foo" ++ nl ++ nl ++ "bar" ++ nl ++ "---")%string.

(** Two prefill lines with different rates. *)
Definition twoPrefills : string :=
  ("Prefill: 1 tokens/sec" ++ nl ++ "Prefill: 2 tokens/sec")%string.

(** One line for each category, the decode rate written with a fraction. *)
Definition allMetrics : string :=
  ("Peak memory: 512 MB" ++ nl ++ "Decode: 12.5 tokens/sec" ++ nl
   ++ "Prefill: 120 tokens/sec")%string.

(** The stderr of a failed model load, with and without the fatal prefix. *)
Definition fatalStderr : string := "F0000 00:00:00 Check failure: model load".
Definition checkFailureStderr : string := "Check failure: model load".

End Scenarios.

(* ------------------------------------------------------------------ *)
(** ** Facts about the string primitives *)

Module StringFacts.
Import JsString.

Lemma append_nil_r (s : string) : (s ++ EmptyString)%string = s.
Proof. induction s as [|c s IH]; simpl; [reflexivity | now rewrite IH]. Qed.

Lemma append_assoc (a b c : string) :
  ((a ++ b) ++ c)%string = (a ++ (b ++ c))%string.
Proof. induction a as [|x a IH]; simpl; [reflexivity | now rewrite IH]. Qed.

Lemma truthy_true (s : string) : truthy s = true <-> s <> EmptyString.
Proof. destruct s; simpl; split; congruence. Qed.

Lemma truthy_false (s : string) : truthy s = false <-> s = EmptyString.
Proof. destruct s; simpl; split; congruence. Qed.

Lemma truthy_append_r (a b : string) :
  truthy b = true -> truthy (a ++ b) = true.
Proof. destruct a; simpl; auto. Qed.

(** *** [prefix] and [includes] *)

Lemma prefix_cons (c d : ascii) (p s : string) :
  prefix (String c p) (String d s) = Ascii.eqb c d && prefix p s.
Proof.
  simpl. destruct (ascii_dec c d) as [->|Hne].
  - now rewrite Ascii.eqb_refl.
  - apply Ascii.eqb_neq in Hne. now rewrite Hne.
Qed.

Lemma prefix_nil (s : string) : prefix EmptyString s = true.
Proof. destruct s; reflexivity. Qed.

Lemma prefix_refl (s : string) : prefix s s = true.
Proof.
  induction s as [|c s IH]; [reflexivity|].
  rewrite prefix_cons, Ascii.eqb_refl. exact IH.
Qed.

Lemma prefix_append (p a b : string) :
  prefix p a = true -> prefix p (a ++ b) = true.
Proof.
  revert a. induction p as [|c p IH]; intros a H.
  - apply prefix_nil.
  - destruct a as [|d a]; [discriminate|].
    change (String d a ++ b)%string with (String d (a ++ b)).
    rewrite prefix_cons in *. apply andb_true_iff in H as [H1 H2].
    rewrite H1. simpl. now apply IH.
Qed.

Lemma includes_cons (n : string) (c : ascii) (s : string) :
  includes n (String c s) = prefix n (String c s) || includes n s.
Proof. reflexivity. Qed.

Lemma includes_prefix (n s : string) : prefix n s = true -> includes n s = true.
Proof.
  intros H. destruct s as [|c s].
  - change (includes n EmptyString) with (prefix n EmptyString || false).
    now rewrite H.
  - now rewrite includes_cons, H.
Qed.

Lemma includes_append_l (n a b : string) :
  includes n a = true -> includes n (a ++ b) = true.
Proof.
  induction a as [|c a IH]; intros H.
  - simpl in H. rewrite orb_false_r in H.
    apply includes_prefix. now apply (prefix_append n EmptyString b).
  - change (String c a ++ b)%string with (String c (a ++ b)).
    rewrite includes_cons in *. apply orb_true_iff in H as [H|H].
    + pose proof (prefix_append n (String c a) b H) as P.
      change (String c a ++ b)%string with (String c (a ++ b)) in P.
      now rewrite P.
    + rewrite (IH H). apply orb_true_r.
Qed.

Lemma includes_append_r (n a b : string) :
  includes n b = true -> includes n (a ++ b) = true.
Proof.
  intros H. induction a as [|c a IH]; [exact H|].
  change (String c a ++ b)%string with (String c (a ++ b)).
  rewrite includes_cons, IH. apply orb_true_r.
Qed.

Lemma existsb_false_In {A : Type} (f : A -> bool) (l : list A) (x : A) :
  existsb f l = false -> In x l -> f x = false.
Proof.
  intros H Hin. destruct (f x) eqn:E; [|reflexivity].
  assert (existsb f l = true) by (apply existsb_exists; eauto). congruence.
Qed.

(** *** Blank strings *)

Lemma allWhite_append (a b : string) :
  allWhite (a ++ b) = allWhite a && allWhite b.
Proof.
  induction a as [|c a IH]; simpl; [reflexivity|].
  now rewrite IH, andb_assoc.
Qed.

(** *** [trim] *)

Lemma trimStart_suffix (s : string) :
  exists a, s = (a ++ trimStart s)%string.
Proof.
  induction s as [|c s [a IH]]; simpl.
  - now exists EmptyString.
  - destruct (isWhiteSpace c).
    + exists (String c a). simpl. now rewrite <- IH.
    + now exists EmptyString.
Qed.

Lemma trimEnd_prefix (s : string) :
  exists b, s = (trimEnd s ++ b)%string.
Proof.
  induction s as [|c s [b IH]]; simpl.
  - now exists EmptyString.
  - destruct (trimEnd s) as [|d t] eqn:E.
    + destruct (isWhiteSpace c).
      * now exists (String c s).
      * exists s. reflexivity.
    + exists b. simpl. now rewrite IH at 1.
Qed.

Lemma includes_trim (n s : string) :
  includes n (trim s) = true -> includes n s = true.
Proof.
  unfold trim. intros H.
  destruct (trimStart_suffix s) as [a Ha].
  destruct (trimEnd_prefix (trimStart s)) as [b Hb].
  rewrite Ha. apply includes_append_r. rewrite Hb.
  now apply includes_append_l.
Qed.

Lemma trimEnd_truthy (s : string) : truthy (trimEnd s) = negb (allWhite s).
Proof.
  induction s as [|c s IH]; simpl; [reflexivity|].
  destruct (trimEnd s) as [|d t]; simpl in *.
  - destruct (isWhiteSpace c); simpl; [|reflexivity].
    now destruct (allWhite s).
  - destruct (allWhite s); [discriminate|]. now rewrite andb_false_r.
Qed.

Lemma allWhite_trimStart (s : string) : allWhite (trimStart s) = allWhite s.
Proof.
  induction s as [|c s IH]; simpl; [reflexivity|].
  destruct (isWhiteSpace c) eqn:E; simpl; [exact IH | now rewrite E].
Qed.

Lemma trim_truthy (s : string) : truthy (trim s) = negb (allWhite s).
Proof. unfold trim. now rewrite trimEnd_truthy, allWhite_trimStart. Qed.

Lemma trimEnd_idempotent (s : string) : trimEnd (trimEnd s) = trimEnd s.
Proof.
  induction s as [|c s IH]; simpl; [reflexivity|].
  destruct (trimEnd s) as [|d t] eqn:E.
  - destruct (isWhiteSpace c) eqn:W; simpl; [reflexivity | now rewrite W].
  - simpl in IH |- *. destruct (trimEnd t) as [|e u] eqn:E2.
    + destruct (isWhiteSpace d); [discriminate|]. now rewrite IH.
    + now rewrite IH.
Qed.

(** A string that does not start with white space keeps its first
    character under [trimEnd], so [trimStart] leaves the result alone. *)
Lemma trimStart_trimEnd (s : string) :
  trimStart s = s -> trimStart (trimEnd s) = trimEnd s.
Proof.
  destruct s as [|c s]; [reflexivity|]. simpl.
  destruct (isWhiteSpace c) eqn:W.
  - intros H. exfalso.
    destruct (trimStart_suffix s) as [a Ha].
    assert (L : String.length (trimStart s) = S (String.length s)) by now rewrite H.
    assert (L2 : String.length s = String.length a + String.length (trimStart s)).
    { rewrite Ha at 1. clear. induction a; simpl; auto. }
    lia.
  - intros _. destruct (trimEnd s); simpl; now rewrite W.
Qed.

Lemma trimStart_idempotent (s : string) : trimStart (trimStart s) = trimStart s.
Proof.
  induction s as [|c s IH]; simpl; [reflexivity|].
  destruct (isWhiteSpace c) eqn:W; [exact IH | simpl; now rewrite W].
Qed.

Lemma trim_idempotent (s : string) : trim (trim s) = trim s.
Proof.
  unfold trim.
  rewrite (trimStart_trimEnd (trimStart s) (trimStart_idempotent s)).
  apply trimEnd_idempotent.
Qed.

(** *** [split] and [join] *)

Lemma split_nonempty (sep : ascii) (s : string) : split sep s <> [].
Proof.
  destruct s as [|c s]; simpl; [discriminate|].
  destruct (Ascii.eqb c sep); [discriminate|].
  destruct (split sep s); discriminate.
Qed.

Lemma join_cons (sep x y : string) (l : list string) :
  join sep (x :: y :: l) = (x ++ sep ++ join sep (y :: l))%string.
Proof. reflexivity. Qed.

Lemma join_cons_char (sep : string) (c : ascii) (w : string) (ws : list string) :
  join sep (String c w :: ws) = String c (join sep (w :: ws)).
Proof. destruct ws; reflexivity. Qed.

(** Joining what [split] produced gives the text back. *)
Lemma join_split (sep : ascii) (s : string) :
  join (String sep EmptyString) (split sep s) = s.
Proof.
  induction s as [|c s IH]; [reflexivity|].
  simpl split. destruct (Ascii.eqb c sep) eqn:E.
  - apply Ascii.eqb_eq in E. subst c.
    destruct (split sep s) as [|w ws] eqn:S; [now apply split_nonempty in S|].
    rewrite join_cons, IH. reflexivity.
  - destruct (split sep s) as [|w ws] eqn:S; [now apply split_nonempty in S|].
    now rewrite join_cons_char, IH.
Qed.

(** No element of [split sep s] holds the separator. *)
Lemma split_no_sep (sep : ascii) (s l : string) :
  In l (split sep s) -> hasChar sep l = false.
Proof.
  revert l. induction s as [|c s IH]; intros l Hin.
  - destruct Hin as [<-|[]]. reflexivity.
  - simpl in Hin. destruct (Ascii.eqb c sep) eqn:E.
    + destruct Hin as [<-|Hin]; [reflexivity | now apply IH].
    + destruct (split sep s) as [|w ws] eqn:S; [now apply split_nonempty in S|].
      destruct Hin as [<-|Hin].
      * simpl. rewrite E. apply IH. now left.
      * apply IH. now right.
Qed.

Lemma hasChar_append (c : ascii) (a b : string) :
  hasChar c (a ++ b) = hasChar c a || hasChar c b.
Proof.
  induction a as [|d a IH]; simpl; [reflexivity|].
  now rewrite IH, orb_assoc.
Qed.

(** A needle that starts with a character absent from [l] is not in [l]. *)
Lemma includes_absent_head (c : ascii) (x l : string) :
  hasChar c l = false -> includes (String c x) l = false.
Proof.
  induction l as [|d l IH]; intros H; [reflexivity|].
  simpl in H. apply orb_false_iff in H as [H1 H2].
  rewrite includes_cons, prefix_cons, (IH H2), Ascii.eqb_sym, H1.
  reflexivity.
Qed.

(** Past a stretch [l] free of [c], a needle that starts with [c] is found
    right at the next [c] or further on. *)
Lemma includes_after_line (c : ascii) (x l t : string) :
  hasChar c l = false ->
  includes (String c x) (l ++ String c t) = prefix x t || includes (String c x) t.
Proof.
  induction l as [|d l IH]; intros H.
  - simpl append. now rewrite includes_cons, prefix_cons, Ascii.eqb_refl.
  - simpl in H. apply orb_false_iff in H as [H1 H2].
    change (String d l ++ String c t)%string with (String d (l ++ String c t)).
    rewrite includes_cons, prefix_cons, (IH H2), Ascii.eqb_sym, H1.
    reflexivity.
Qed.

(** A prefix free of [c] never reaches past the first [c]. *)
Lemma prefix_before_char (c : ascii) (x a b : string) :
  hasChar c x = false ->
  prefix x (a ++ String c b) = true -> prefix x a = true.
Proof.
  revert a. induction x as [|d x IH]; intros a Hx H; [apply prefix_nil|].
  simpl in Hx. apply orb_false_iff in Hx as [Hd Hx].
  destruct a as [|e a].
  - simpl append in H. rewrite prefix_cons, Hd in H. discriminate.
  - change (String e a ++ String c b)%string with (String e (a ++ String c b)) in H.
    rewrite prefix_cons in *. apply andb_true_iff in H as [H1 H2].
    rewrite H1. simpl. now apply IH.
Qed.

Lemma prefix_head_of_join (c : ascii) (x l : string) (ls : list string) :
  hasChar c x = false ->
  prefix x (join (String c EmptyString) (l :: ls)) = true -> prefix x l = true.
Proof.
  intros Hx H. destruct ls as [|l2 ls]; [exact H|].
  rewrite join_cons in H. simpl append in H.
  now apply (prefix_before_char c x l _ Hx H).
Qed.

(** In lines joined by [c], a needle [c x] with [x] free of [c] can only
    sit at a line break: [x] then starts one of the lines. *)
Lemma includes_join_line_start (c : ascii) (x : string) (ls : list string) :
  hasChar c x = false ->
  (forall l, In l ls -> hasChar c l = false) ->
  includes (String c x) (join (String c EmptyString) ls) = true ->
  exists l, In l ls /\ prefix x l = true.
Proof.
  intros Hx. induction ls as [|l ls IH]; intros Hls H; [discriminate|].
  destruct ls as [|l2 ls].
  - simpl join in H.
    rewrite (includes_absent_head c x l) in H; [discriminate|].
    apply Hls. now left.
  - rewrite join_cons in H. simpl append in H.
    rewrite includes_after_line in H by (apply Hls; now left).
    apply orb_true_iff in H as [H|H].
    + exists l2. split; [right; now left|].
      now apply (prefix_head_of_join c x l2 ls Hx).
    + destruct IH as [l' [Hin Hp]]; [intros; apply Hls; now right | exact H |].
      exists l'. split; [now right | exact Hp].
Qed.

Lemma allWhite_join (sep : string) (ls : list string) :
  allWhite sep = true ->
  allWhite (join sep ls) = forallb allWhite ls.
Proof.
  intros Hsep. induction ls as [|l ls IH]; [reflexivity|].
  destruct ls as [|l2 ls].
  - simpl. now rewrite andb_true_r.
  - rewrite join_cons, !allWhite_append, Hsep, IH. reflexivity.
Qed.

(** *** Lines of a joined text *)

Lemma hasChar_trimStart (c : ascii) (s : string) :
  hasChar c s = false -> hasChar c (trimStart s) = false.
Proof.
  destruct (trimStart_suffix s) as [a Ha]. intros H.
  rewrite Ha, hasChar_append in H. now apply orb_false_iff in H.
Qed.

Lemma hasChar_trimEnd (c : ascii) (s : string) :
  hasChar c s = false -> hasChar c (trimEnd s) = false.
Proof.
  destruct (trimEnd_prefix s) as [b Hb]. intros H.
  rewrite Hb, hasChar_append in H. now apply orb_false_iff in H.
Qed.

Lemma hasChar_trim (c : ascii) (s : string) :
  hasChar c s = false -> hasChar c (trim s) = false.
Proof. intros H. now apply hasChar_trimEnd, hasChar_trimStart. Qed.

Lemma hasChar_substringFrom (c : ascii) (n : nat) (s : string) :
  hasChar c s = false -> hasChar c (substringFrom n s) = false.
Proof.
  revert s. induction n as [|n IH]; intros s H; [exact H|].
  destruct s as [|d s]; [reflexivity|].
  simpl in H. apply orb_false_iff in H as [_ H]. now apply IH.
Qed.

Lemma allWhite_trimEnd (s : string) : allWhite (trimEnd s) = allWhite s.
Proof.
  induction s as [|c s IH]; [reflexivity|].
  pose proof (trimEnd_truthy s) as T.
  simpl. destruct (trimEnd s) as [|d t].
  - simpl in T. destruct (allWhite s); [|discriminate].
    destruct (isWhiteSpace c) eqn:W; simpl; now rewrite ?W.
  - rewrite <- IH. reflexivity.
Qed.

Lemma trimStart_append (a b : string) :
  allWhite a = false -> trimStart (a ++ b) = (trimStart a ++ b)%string.
Proof.
  induction a as [|c a IH]; intros H; [discriminate|].
  simpl in H |- *. destruct (isWhiteSpace c); [now apply IH | reflexivity].
Qed.

Lemma trimEnd_append (a b : string) :
  allWhite b = false -> trimEnd (a ++ b) = (a ++ trimEnd b)%string.
Proof.
  intros H. induction a as [|c a IH]; [reflexivity|].
  simpl. rewrite IH.
  pose proof (trimEnd_truthy b) as T. rewrite H in T.
  destruct (a ++ trimEnd b)%string eqn:E; [|reflexivity].
  destruct a; [|discriminate]. simpl in E. now rewrite E in T.
Qed.

Lemma join_snoc (sep x : string) (ls : list string) :
  ls <> [] -> join sep (ls ++ [x]) = (join sep ls ++ sep ++ x)%string.
Proof.
  induction ls as [|l ls IH]; intros H; [contradiction|].
  destruct ls as [|l2 ls]; [reflexivity|].
  change ((l :: l2 :: ls) ++ [x]) with (l :: (l2 :: ls) ++ [x]).
  change ((l2 :: ls) ++ [x]) with (l2 :: ls ++ [x]) at 1.
  rewrite !join_cons. change (l2 :: ls ++ [x]) with ((l2 :: ls) ++ [x]).
  rewrite IH by discriminate. now rewrite !append_assoc.
Qed.

Lemma split_line (c : ascii) (l : string) :
  hasChar c l = false -> split c l = [l].
Proof.
  induction l as [|d l IH]; intros H; [reflexivity|].
  simpl in H. apply orb_false_iff in H as [H1 H2].
  simpl. now rewrite H1, (IH H2).
Qed.

Lemma split_append (c : ascii) (l t : string) :
  hasChar c l = false -> split c (l ++ String c t) = l :: split c t.
Proof.
  induction l as [|d l IH]; intros H.
  - simpl. now rewrite Ascii.eqb_refl.
  - simpl in H. apply orb_false_iff in H as [H1 H2].
    simpl. now rewrite H1, (IH H2).
Qed.

(** Splitting what [join] built from lines without separator gives the
    lines back. *)
Lemma split_join (c : ascii) (ls : list string) :
  ls <> [] ->
  (forall l, In l ls -> hasChar c l = false) ->
  split c (join (String c EmptyString) ls) = ls.
Proof.
  induction ls as [|l ls IH]; intros Hne Hls; [contradiction|].
  destruct ls as [|l2 ls].
  - apply split_line, Hls. now left.
  - rewrite join_cons. cbn [append].
    rewrite split_append by (apply Hls; now left).
    f_equal. apply IH; [discriminate | intros; apply Hls; now right].
Qed.

(** Two ways to read a text up to a separator, when the first stretch
    holds no separator. *)
Lemma append_sep_cases (c : ascii) (l u a t : string) :
  hasChar c l = false ->
  (l ++ String c u)%string = (a ++ String c t)%string ->
  (a = l /\ u = t)
  \/ exists a', a = (l ++ String c a')%string /\ u = (a' ++ String c t)%string.
Proof.
  revert a. induction l as [|d l IH]; intros a Hl E.
  - destruct a as [|e a]; simpl in E.
    + left. split; congruence.
    + right. injection E as -> ->. now exists a.
  - simpl in Hl. apply orb_false_iff in Hl as [Hd Hl].
    destruct a as [|e a]; simpl in E.
    + injection E as -> _. now rewrite Ascii.eqb_refl in Hd.
    + injection E as <- E. destruct (IH a Hl E) as [[-> ->]|[a' [-> ->]]].
      * now left.
      * right. now exists a'.
Qed.

(** A text of joined lines, cut right before one of its separators, is
    the join of some of the lines. *)
Lemma join_cut (c : ascii) (ls : list string) :
  (forall l, In l ls -> hasChar c l = false) ->
  forall a t,
    join (String c EmptyString) ls = (a ++ String c t)%string ->
    exists ls', a = join (String c EmptyString) ls'
                /\ ls' <> [] /\ (forall l, In l ls' -> In l ls).
Proof.
  induction ls as [|l ls IH]; intros Hls a t E.
  - destruct a; discriminate.
  - destruct ls as [|l2 ls].
    + exfalso. simpl in E.
      assert (H : hasChar c l = false) by (apply Hls; now left).
      rewrite E, hasChar_append in H. simpl in H.
      rewrite Ascii.eqb_refl, orb_true_r in H. discriminate.
    + rewrite join_cons in E. cbn [append] in E.
      apply append_sep_cases in E; [|apply Hls; now left].
      destruct E as [[-> _]|[a' [-> E]]].
      * exists [l]. repeat split; [discriminate|]. intros x [<-|[]]. now left.
      * destruct (IH (fun x Hx => Hls x (or_intror Hx)) a' t E)
          as (ls' & -> & Hne & Hsub).
        exists (l :: ls'). repeat split.
        -- destruct ls'; [contradiction | reflexivity].
        -- discriminate.
        -- intros x [<-|Hx]; [now left | right; now apply Hsub].
Qed.

End StringFacts.

(* ------------------------------------------------------------------ *)
(** ** Facts about the matcher *)

Module RegexFacts.
Import JsString Regex StringFacts.

(** Without the [i] flag a literal run matches only at a string that
    starts with it, whatever is matched next. *)
Lemma run_Lit_prefix {R : Type} (f : flags) (x : string) :
  ignoreCase f = false ->
  forall pos s caps (k : cont R) v,
    run f (Lit x) pos s caps k = Some v -> prefix x s = true.
Proof.
  intros Hf. induction x as [|c x IH]; intros pos s caps k v H.
  - apply prefix_nil.
  - simpl in H. destruct s as [|d s]; [discriminate|].
    unfold sameChar in H. rewrite Hf in H.
    destruct (Ascii.eqb c d) eqn:E; [|discriminate].
    rewrite prefix_cons, E. simpl. exact (IH _ _ _ _ _ H).
Qed.

(** A pattern that begins with a literal run is only found in a text
    that includes the run. *)
Lemma searchFrom_Lit_includes (f : flags) (x : string) (r : regex) :
  ignoreCase f = false ->
  forall s pos m,
    searchFrom f (Seq (Lit x) r) pos s = Some m -> includes x s = true.
Proof.
  intros Hf. induction s as [|c s IH]; intros pos m H; simpl in H.
  - destruct (run f (Lit x) pos EmptyString [] _) eqn:E; [|discriminate].
    apply includes_prefix. exact (run_Lit_prefix f x Hf _ _ _ _ _ E).
  - destruct (run f (Lit x) pos (String c s) [] _) eqn:E.
    + apply includes_prefix. exact (run_Lit_prefix f x Hf _ _ _ _ _ E).
    + rewrite includes_cons, (IH _ _ H). apply orb_true_r.
Qed.

Lemma replace_Lit_absent (f : flags) (x : string) (r : regex) (repl s : string) :
  ignoreCase f = false ->
  includes x s = false ->
  replace f (Seq (Lit x) r) repl s = s.
Proof.
  intros Hf Hx. unfold replace, exec.
  destruct (searchFrom f (Seq (Lit x) r) 0 s) as [m|] eqn:E; [|reflexivity].
  rewrite (searchFrom_Lit_includes f x r Hf _ _ _ E) in Hx. discriminate.
Qed.

(** *** The patterns [\nLabel.*$] under the [s] flag *)

Lemma substringFrom_length (s : string) : substringFrom (String.length s) s = EmptyString.
Proof. induction s as [|c s IH]; [reflexivity | exact IH]. Qed.

Lemma substringTo_append (a b : string) : substringTo (String.length a) (a ++ b) = a.
Proof. induction a as [|c a IH]; simpl; [now destruct b | now rewrite IH]. Qed.

Lemma length_append (a b : string) :
  String.length (a ++ b) = String.length a + String.length b.
Proof. induction a as [|c a IH]; simpl; [reflexivity | now rewrite IH]. Qed.

Lemma prefix_split (p s : string) :
  prefix p s = true -> s = (p ++ substringFrom (String.length p) s)%string.
Proof.
  revert s. induction p as [|c p IH]; intros s H; [reflexivity|].
  destruct s as [|d s]; [discriminate|].
  rewrite prefix_cons in H. apply andb_true_iff in H as [H1 H2].
  apply Ascii.eqb_eq in H1. subst d. simpl. f_equal. now apply IH.
Qed.

(** A literal run is matched exactly where the string starts with it. *)
Lemma run_Lit {R : Type} (f : flags) (x : string) :
  ignoreCase f = false ->
  forall pos s caps (k : cont R),
    run f (Lit x) pos s caps k =
    if prefix x s
    then k (pos + String.length x) (substringFrom (String.length x) s) caps
    else None.
Proof.
  intros Hf. induction x as [|c x IH]; intros pos s caps k.
  - cbn [Lit run String.length substringFrom].
    now rewrite prefix_nil, Nat.add_0_r.
  - cbn [Lit run]. destruct s as [|d s]; [reflexivity|].
    rewrite prefix_cons. unfold sameChar. rewrite Hf.
    destruct (Ascii.eqb c d); [|reflexivity].
    rewrite IH. cbn [andb String.length substringFrom].
    now rewrite Nat.add_succ_r.
Qed.

(** Under the [s] flag, [.*] followed by [$] takes the rest of the input,
    whatever it is. *)
Lemma starLoop_dot_to_end {R : Type} (f : flags) (k : cont R) :
  dotAll f = true ->
  forall s n pos caps,
    String.length s <= n ->
    starLoop true (run f Dot)
             (fun pos' s' caps' => run f Eol pos' s' caps' k) n pos s caps
    = k (pos + String.length s) EmptyString caps.
Proof.
  intros Hf. induction s as [|c s IH]; intros n pos caps Hn.
  - destruct n; cbn; now rewrite Nat.add_0_r.
  - destruct n as [|n]; [simpl in Hn; lia|].
    cbn [starLoop]. cbv beta.
    change (run f Eol pos (String c s) caps k) with (@None R).
    change (run f Dot pos (String c s) caps) with
      (fun K : cont R => if dotMatches f c then K (S pos) s caps else None).
    cbv beta. unfold dotMatches. rewrite Hf. cbn [orb].
    assert (L : (String.length s <? String.length (String c s)) = true)
      by (apply Nat.ltb_lt; simpl; lia).
    rewrite L, IH by (simpl in Hn; lia).
    cbn [String.length]. rewrite Nat.add_succ_r. cbn [Nat.add].
    now destruct (k (S (pos + String.length s)) EmptyString caps).
Qed.

Lemma run_Seq {R : Type} (f : flags) (r1 r2 : regex) pos s caps (k : cont R) :
  run f (Seq r1 r2) pos s caps k =
  run f r1 pos s caps (fun pos' s' caps' => run f r2 pos' s' caps' k).
Proof. reflexivity. Qed.

Lemma run_Star {R : Type} (f : flags) (g : bool) (r : regex) pos s caps (k : cont R) :
  run f (Star g r) pos s caps k =
  starLoop g (run f r) k (String.length s) pos s caps.
Proof. reflexivity. Qed.

(** The whole pattern at one position: it matches when the text there
    starts with the literal, and then runs to the end of the input. *)
Lemma run_to_end {R : Type} (x : string) pos s caps (k : cont R) :
  run flag_s (Seq (Lit x) (Seq (Star true Dot) Eol)) pos s caps k =
  if prefix x s then k (pos + String.length s) EmptyString caps else None.
Proof.
  rewrite run_Seq, run_Lit by reflexivity.
  destruct (prefix x s) eqn:P; [|reflexivity].
  rewrite run_Seq, run_Star, starLoop_dot_to_end by (reflexivity || apply le_n).
  assert (L : String.length s
              = String.length x + String.length (substringFrom (String.length x) s)).
  { rewrite <- length_append. f_equal. now apply prefix_split. }
  now rewrite L, Nat.add_assoc.
Qed.

(** Where such a pattern is found, the match starts at an occurrence of
    the line feed and the label, and ends with the input. *)
Lemma searchFrom_to_end (x : string) :
  forall s pos m,
    searchFrom flag_s (Seq (Lit x) (Seq (Star true Dot) Eol)) pos s = Some m ->
    exists a b,
      s = (a ++ x ++ b)%string
      /\ matchStart m = pos + String.length a
      /\ matchEnd m = pos + String.length s.
Proof.
  assert (Here : forall s pos m,
             prefix x s = true ->
             Some {| matchStart := pos; matchEnd := pos + String.length s;
                     captures := [] |} = Some m ->
             exists a b,
               s = (a ++ x ++ b)%string
               /\ matchStart m = pos + String.length a
               /\ matchEnd m = pos + String.length s).
  { intros s pos m P E. injection E as <-.
    exists EmptyString, (substringFrom (String.length x) s).
    cbn [matchStart matchEnd append String.length].
    repeat split; [now apply prefix_split | lia]. }
  induction s as [|c s IH]; intros pos m H; cbn [searchFrom] in H;
    rewrite run_to_end in H.
  - destruct (prefix x EmptyString) eqn:P; [|discriminate].
    now apply Here.
  - destruct (prefix x (String c s)) eqn:P; [now apply Here|].
    destruct (IH _ _ H) as (a & b & -> & Hs & He).
    exists (String c a), b. cbn [append String.length].
    repeat split; lia.
Qed.

(** The replacement either finds nothing or cuts the text at an occurrence
    of the line feed and the label. *)
Lemma replace_to_end (x s : string) :
  replace flag_s (Seq (Lit x) (Seq (Star true Dot) Eol)) EmptyString s = s
  \/ exists a b,
       s = (a ++ x ++ b)%string
       /\ replace flag_s (Seq (Lit x) (Seq (Star true Dot) Eol)) EmptyString s = a.
Proof.
  unfold replace, exec.
  destruct (searchFrom flag_s _ 0 s) as [m|] eqn:E; [right | now left].
  destruct (searchFrom_to_end x s 0 m E) as (a & b & Hs & Hstart & Hend).
  exists a, b. split; [exact Hs|].
  cbn [Nat.add] in Hstart, Hend. rewrite Hstart, Hend, substringFrom_length.
  cbn [append]. rewrite append_nil_r. subst s. apply substringTo_append.
Qed.

End RegexFacts.

(* ------------------------------------------------------------------ *)
(** ** Properties of litert-parser.js *)

Module ParserFacts.
Import JsString Regex Parser StringFacts RegexFacts.

(** Settle a goal about a member of a literal list by evaluating it at
    each element. *)
Ltac for_each_member H :=
  cbn [In] in H;
  repeat (destruct H as [<-|H]; [vm_compute; reflexivity|]);
  destruct H.

(** *** The main loop on a marker line and on plain body lines *)

Lemma marker_starts_output (m : string) :
  In m responseMarkers -> startsOutput m = true.
Proof. unfold responseMarkers. intros H. for_each_member H. Qed.

Lemma marker_opens_response (m : string) :
  In m responseMarkers ->
  checkMarkers responseMarkers m initialState = collecting EmptyString.
Proof. unfold responseMarkers. intros H. for_each_member H. Qed.

Lemma checkMarkers_no_marker (line : string) (st : scanState) :
  mentionsMarker line = false -> checkMarkers responseMarkers line st = st.
Proof.
  unfold mentionsMarker. generalize responseMarkers as ms.
  induction ms as [|mk ms IH]; intros H; [reflexivity|].
  simpl in H. apply orb_false_iff in H as [H1 H2].
  simpl. rewrite H1. now apply IH.
Qed.

Lemma collectLine_collecting (i : nat) (line acc : string) :
  0 < i ->
  collectLine i line (collecting acc) =
  collecting (if nonBlank line then appendLine acc line else acc).
Proof.
  intros Hi. unfold collectLine, collecting, nonBlank, appendLine. simpl.
  apply Nat.ltb_lt in Hi. rewrite Hi.
  destruct (truthy acc), (truthy (trim line)); reflexivity.
Qed.

Lemma scan_cons (i : nat) (line : string) (rest : list string) (st : scanState) :
  scan i (line :: rest) st =
  if hitsEndMarker line && inResponse st then st
  else scan (S i) rest (collectLine i line (checkMarkers responseMarkers line st)).
Proof. reflexivity. Qed.

Lemma scan_body (body tail : list string) :
  forall i acc,
    0 < i ->
    (forall l, In l body -> mentionsMarker l = false /\ hitsEndMarker l = false) ->
    scan i (body ++ tail) (collecting acc) =
    scan (i + List.length body) tail
         (collecting (fold_left appendLine (filter nonBlank body) acc)).
Proof.
  induction body as [|l body IH]; intros i acc Hi Hbody.
  - simpl. now rewrite Nat.add_0_r.
  - destruct (Hbody l (or_introl eq_refl)) as [Hm He].
    simpl app. rewrite scan_cons, He. simpl andb. cbv iota.
    rewrite (checkMarkers_no_marker _ _ Hm), (collectLine_collecting _ _ _ Hi).
    rewrite IH; [|lia|intros; apply Hbody; now right].
    simpl List.length. replace (S i + List.length body) with (i + S (List.length body)) by lia.
    simpl filter. destruct (nonBlank l); reflexivity.
Qed.

Lemma nonBlank_truthy (l : string) : nonBlank l = true -> truthy l = true.
Proof.
  unfold nonBlank. rewrite trim_truthy. destruct l; [discriminate | reflexivity].
Qed.

Lemma nonBlank_allWhite (l : string) : nonBlank l = negb (allWhite l).
Proof. apply trim_truthy. Qed.

(** Appending non-empty lines one by one builds their [join]. *)
Lemma fold_appendLine_join (ls : list string) :
  forall acc,
    (forall l, In l ls -> truthy l = true) ->
    fold_left appendLine ls acc =
    join nl (if truthy acc then acc :: ls else ls).
Proof.
  induction ls as [|l ls IH]; intros acc Hls.
  - simpl. destruct acc; reflexivity.
  - simpl fold_left. rewrite IH by (intros; apply Hls; now right).
    assert (Hl : truthy l = true) by (apply Hls; now left).
    assert (Ha : truthy (appendLine acc l) = true)
      by (unfold appendLine; now apply truthy_append_r).
    rewrite Ha. unfold appendLine.
    destruct (truthy acc) eqn:Eacc;
      [|destruct acc; [reflexivity | discriminate]].
    destruct ls; [simpl; apply append_assoc|].
    rewrite !join_cons, !append_assoc. reflexivity.
Qed.

(** *** The clean-up after the loops *)

Lemma includes_trim_false (n s : string) :
  includes n s = false -> includes n (trim s) = false.
Proof.
  intros H. destruct (includes n (trim s)) eqn:E; [|reflexivity].
  apply includes_trim in E. congruence.
Qed.

Lemma cleanup_step_absent (x t : string) :
  includes (nl ++ x) t = false ->
  trim (replace flag_s (perfPattern x) EmptyString (trim t)) = trim t.
Proof.
  intros H. unfold perfPattern.
  rewrite replace_Lit_absent;
    [apply trim_idempotent | reflexivity | now apply includes_trim_false].
Qed.

(** When no performance label follows a line break, the four replacements
    change nothing. *)
Lemma cleanup_without_labels (t : string) :
  (forall x, In x perfLabels -> includes (nl ++ x) t = false) ->
  fold_left (fun resp pattern => trim (replace flag_s pattern EmptyString resp))
            perfPatterns (trim t) = trim t.
Proof.
  intros H. unfold perfPatterns. cbn [fold_left].
  rewrite (cleanup_step_absent "Prefill:" t), (cleanup_step_absent "Decode:" t),
    (cleanup_step_absent "Peak memory" t), (cleanup_step_absent "Tokens/sec" t);
    [reflexivity | ..]; apply H; simpl; tauto.
Qed.

Lemma perfLabel_is_endMarker (x l : string) :
  In x perfLabels -> hitsEndMarker l = false -> includes x l = false.
Proof.
  intros Hx Hl. unfold hitsEndMarker in Hl.
  apply (existsb_false_In _ _ x Hl).
  simpl in Hx. unfold endMarkers. simpl. tauto.
Qed.

(** Lines without end markers, joined, hold no performance label at the
    start of a line. *)
Lemma join_without_labels (ls : list string) :
  (forall l, In l ls -> hasChar LF l = false /\ hitsEndMarker l = false) ->
  forall x, In x perfLabels -> includes (nl ++ x) (join nl ls) = false.
Proof.
  intros Hls x Hx.
  destruct (includes (nl ++ x) (join nl ls)) eqn:E; [|reflexivity].
  exfalso. unfold nl in E. simpl append in E.
  apply includes_join_line_start in E.
  - destruct E as [l [Hin Hp]].
    apply includes_prefix in Hp.
    rewrite (perfLabel_is_endMarker x l Hx) in Hp; [discriminate|].
    now apply Hls.
  - unfold perfLabels in Hx. for_each_member Hx.
  - intros l Hin. now apply Hls.
Qed.

(** *** A marker on the first line *)

(** The answer when the first line is a marker and the lines up to the
    first end marker hold no marker: the non-blank ones, joined. *)
Lemma parse_marker_first (output m e : string) (body rest : list string) :
  split LF output = m :: body ++ e :: rest ->
  In m responseMarkers ->
  (forall l, In l body -> mentionsMarker l = false /\ hitsEndMarker l = false) ->
  hitsEndMarker e = true ->
  parseLiteRTOutput output =
  let t := trim (join nl (filter nonBlank body)) in
  if truthy t then t else noResponse.
Proof.
  intros Hsplit Hm Hbody He.
  assert (Hstart : startIndex (m :: body ++ e :: rest) = 0).
  { unfold startIndex. cbn [skipLogs]. now rewrite (marker_starts_output m Hm). }
  assert (Hscan : scan 0 (m :: body ++ e :: rest) initialState =
                  collecting (join nl (filter nonBlank body))).
  { rewrite scan_cons. cbn [inResponse initialState]. rewrite andb_false_r.
    rewrite (marker_opens_response m Hm).
    change (collectLine 0 m (collecting EmptyString)) with (collecting EmptyString).
    rewrite (scan_body body (e :: rest) 1 EmptyString (Nat.lt_0_1) Hbody).
    rewrite scan_cons, He. cbn [inResponse collecting andb].
    rewrite fold_appendLine_join; [reflexivity|].
    intros l Hl. apply filter_In in Hl as [_ Hl]. now apply nonBlank_truthy. }
  unfold parseLiteRTOutput. rewrite Hsplit. cbv zeta. rewrite Hstart.
  change (skipn 0 (m :: body ++ e :: rest)) with (m :: body ++ e :: rest).
  rewrite Hscan. cbn [foundResponseMarker response collecting negb andb].
  rewrite cleanup_without_labels; [reflexivity|].
  apply join_without_labels. intros l Hl.
  apply filter_In in Hl as [Hl _]. split.
  - apply (split_no_sep LF output). rewrite Hsplit. right.
    apply in_or_app. now left.
  - now apply Hbody.
Qed.

(** C1 (as amended): when the first line of the input is exactly a response
    marker, the lines after it up to the first line with an end marker are
    non-blank and hold no response marker, the answer is exactly those lines
    joined with newlines and trimmed. *)
Theorem parse_marker_on_first_line :
  forall (output m : string) (body : list string) (e : string) (rest : list string),
    split LF output = m :: body ++ e :: rest ->
    In m responseMarkers ->
    body <> [] ->
    (forall l, In l body ->
       nonBlank l = true /\ mentionsMarker l = false /\ hitsEndMarker l = false) ->
    hitsEndMarker e = true ->
    parseLiteRTOutput output = trim (join nl body).
Proof.
  intros output m body e rest Hsplit Hm Hne Hbody He.
  rewrite (parse_marker_first output m e body rest Hsplit Hm); [|firstorder|exact He].
  assert (Hf : filter nonBlank body = body).
  { apply forallb_filter_id, forallb_forall. intros l Hl. now apply Hbody. }
  rewrite Hf. cbv zeta.
  assert (Ht : truthy (trim (join nl body)) = true).
  { rewrite trim_truthy, allWhite_join by reflexivity.
    destruct body as [|l body]; [contradiction|].
    destruct (Hbody l (or_introl eq_refl)) as [Hl _].
    rewrite nonBlank_allWhite in Hl. simpl forallb.
    destruct (allWhite l); [discriminate | reflexivity]. }
  now rewrite Ht.
Qed.

Lemma parse_marker_on_first_line_witness :
  parseLiteRTOutput Scenarios.helloOutput =
  trim (join nl ["Hello there,"; "  how are you?"]).
Proof.
  apply (parse_marker_on_first_line Scenarios.helloOutput "Response:"
           ["Hello there,"; "  how are you?"] "Prefill: 12 tokens/sec" []).
  - reflexivity.
  - simpl. tauto.
  - discriminate.
  - intros l [<-|[<-|[]]]; repeat split; reflexivity.
  - reflexivity.
Defined.

(** C1 (as stated) fails: the block [Response:], [bar], [---] of
    [Scenarios.twoBlocks] comes after an inline answer that an end marker
    has already closed, and the answer is [foo]. *)
Lemma marker_block_not_always_extracted : ~ Spec.markerBlockExtracted.
Proof.
  intros H.
  specialize (H Scenarios.twoBlocks ["Output: foo"; "---"] "Response:" ["bar"]
                "---" []).
  assert (E : parseLiteRTOutput Scenarios.twoBlocks = "foo") by (vm_compute; reflexivity).
  rewrite E in H.
  assert (C : "foo" = trim (join nl ["bar"])).
  { apply H.
    - reflexivity.
    - simpl. tauto.
    - discriminate.
    - intros l [<-|[]]. repeat split; reflexivity.
    - reflexivity. }
  vm_compute in C. discriminate.
Qed.

(** C2 (the code departs from it): on the Paris scenario the marker line,
    whose tail is already the answer, is appended once more as a body line;
    the answer is the sentence followed by the whole marker line. *)
Theorem parse_paris_repeats_marker_line :
  parseLiteRTOutput Scenarios.parisOutput =
    (Scenarios.parisAnswer ++ nl ++ "Response: " ++ Scenarios.parisAnswer)%string
  /\ parseLiteRTOutput Scenarios.parisOutput <> Scenarios.parisAnswer.
Proof. split; [vm_compute; reflexivity | vm_compute; discriminate]. Qed.

(** When no line starts the output, the start index stays 0. *)
Lemma skipLogs_no_output (lines : list string) (i : nat) :
  forallb (fun l => negb (startsOutput l)) lines = true -> skipLogs i lines = 0.
Proof.
  revert i. induction lines as [|l lines IH]; intros i H; [reflexivity|].
  simpl in H. apply andb_true_iff in H as [H1 H2].
  simpl. apply negb_true_iff in H1. rewrite H1. now apply IH.
Qed.

(** C3 (the code departs from it): for two log lines the start index is 0,
    not the number of lines, and the answer is the log text itself. *)
Theorem parse_only_logs_returns_logs :
  forallb (fun l => negb (startsOutput l)) (split LF Scenarios.logsOnly) = true
  /\ startIndex (split LF Scenarios.logsOnly) = 0
  /\ parseLiteRTOutput Scenarios.logsOnly = Scenarios.logsOnly
  /\ parseLiteRTOutput Scenarios.logsOnly <> noResponse.
Proof. repeat split; try (vm_compute; reflexivity). vm_compute. discriminate. Qed.

(** *** The patterns at work *)

Example logPrefix_anchored :
  test noFlags logPrefix "I0001 00:00:00 init" = true
  /\ test noFlags logPrefix " I0001 indented" = false
  /\ test noFlags logPrefix "INFO: loading" = false.
Proof. repeat split. Qed.

Example ratePattern_skips_other_numbers :
  option_map group1
    (exec flag_i (ratePattern "Prefill:") "Prefill: took 2.5 ms, 34.25  Tokens/Sec")
  = Some "34.25".
Proof. reflexivity. Qed.

Example perfPattern_cuts_to_the_end :
  replace flag_s (perfPattern "Decode:") EmptyString
          ("fine" ++ nl ++ "Decode: 3 tokens/sec" ++ nl ++ "more")
  = "fine".
Proof. reflexivity. Qed.

(** A marker inside the body replaces what was collected before it. *)
Example marker_inside_body :
  parseLiteRTOutput
    ("Response:" ++ nl ++ "first" ++ nl ++ "Output: second" ++ nl ++ "---")
  = ("second" ++ nl ++ "Output: second")%string.
Proof. vm_compute. reflexivity. Qed.

(** *** Metrics *)

Lemma field_metricsStep (c : Category) (m : Metrics) (line : string) :
  field c (metricsStep m line) = assign (reading c line) (field c m).
Proof. destruct c; reflexivity. Qed.

Lemma field_fold_metricsStep (c : Category) (lines : list string) :
  forall m,
    field c (fold_left metricsStep lines m) =
    match Spec.lastMatch (reading c) lines with
    | Some v => Some v
    | None => field c m
    end.
Proof.
  induction lines as [|l lines IH]; intros m; [reflexivity|].
  simpl fold_left. rewrite IH, field_metricsStep. simpl.
  destruct (Spec.lastMatch (reading c) lines); [reflexivity|].
  unfold assign. now destruct (reading c l).
Qed.

(** What [Spec.lastMatch] picks. *)
Lemma lastMatch_none {A : Type} (f : string -> option A) (lines : list string) :
  (forall l, In l lines -> f l = None) -> Spec.lastMatch f lines = None.
Proof.
  induction lines as [|l lines IH]; intros H; [reflexivity|].
  simpl. rewrite IH by (intros; apply H; now right). apply H. now left.
Qed.

Lemma lastMatch_last {A : Type} (f : string -> option A)
      (before : list string) (line : string) (after : list string) (v : A) :
  f line = Some v ->
  (forall l, In l after -> f l = None) ->
  Spec.lastMatch f (before ++ line :: after) = Some v.
Proof.
  intros Hv Hafter. induction before as [|b before IH]; simpl.
  - now rewrite (lastMatch_none f after Hafter).
  - now rewrite IH.
Qed.

(** C4 (as amended): for each of the three categories a line counts when
    it holds the category's label as the code writes it ([Prefill:],
    [Decode:], [Peak memory], compared case-sensitively) and matches the
    category's pattern (under the [i] flag); the value reported is the one
    of the last line that counts, and a category for which no line counts
    is absent from the result. *)
Theorem metrics_last_match_wins :
  forall (c : Category) (output : string),
    field c (metrics (parseStructuredOutput output))
    = Spec.lastMatch (reading c) (split LF output)
    /\ (forall line,
          reading c line =
          if includes (MetricTests.labelOf c) line
          then option_map (fun m => parseFloat (group1 m))
                          (exec flag_i (MetricTests.patternOf c) line)
          else None)
    /\ (forall before line after v,
          split LF output = before ++ line :: after ->
          reading c line = Some v ->
          (forall l, In l after -> reading c l = None) ->
          field c (metrics (parseStructuredOutput output)) = Some v)
    /\ ((forall l, In l (split LF output) -> reading c l = None) ->
        field c (metrics (parseStructuredOutput output)) = None).
Proof.
  intros c output.
  assert (E : field c (metrics (parseStructuredOutput output))
              = Spec.lastMatch (reading c) (split LF output)).
  { unfold parseStructuredOutput. cbn [metrics].
    rewrite field_fold_metricsStep.
    destruct (Spec.lastMatch (reading c) (split LF output)); [reflexivity|].
    now destruct c. }
  split; [exact E | split; [|split]].
  - intros line. destruct c; cbn [reading MetricTests.labelOf MetricTests.patternOf];
      unfold readMetric;
      (destruct (includes _ line); [|reflexivity]);
      now destruct (exec flag_i _ line).
  - intros before line after v Hsplit Hv Hafter.
    rewrite E, Hsplit. now apply lastMatch_last.
  - intros Hnone. rewrite E. now apply lastMatch_none.
Qed.

(** A line whose label is written in another case does not count, though
    the pattern alone would match it: of the two lines of
    [MetricTests.mixedCasePrefills] the first is reported. *)
Example metrics_label_is_case_sensitive :
  test flag_i (MetricTests.patternOf Prefill) "prefill: 2 tokens/sec" = true
  /\ reading Prefill "prefill: 2 tokens/sec" = None
  /\ field Prefill (metrics (parseStructuredOutput MetricTests.mixedCasePrefills))
     = Some (Num (Qmake 1 1)).
Proof. repeat split; vm_compute; reflexivity. Qed.

(** Each category is read from its own line, whatever the order of the
    lines, and the value is the number written on the line. *)
Example metrics_of_three_lines :
  metrics (parseStructuredOutput Scenarios.allMetrics)
  = {| prefillTokensPerSec := Some (Num (Qmake 120 1));
       decodeTokensPerSec := Some (Num (Qmake 125 10));
       peakMemoryMB := Some (Num (Qmake 512 1)) |}.
Proof. vm_compute. reflexivity. Qed.

(** C4 (as stated) fails: of two prefill lines the second one is
    reported, not the first. *)
Lemma metrics_first_match_does_not_win :
  field Prefill (metrics (parseStructuredOutput Scenarios.twoPrefills))
  <> Spec.firstMatch (reading Prefill) (split LF Scenarios.twoPrefills).
Proof. vm_compute. discriminate. Qed.

(** *** No blank line in the answer *)

Lemma noBlankLines_empty : noBlankLines EmptyString.
Proof. exists []. split; [reflexivity | intros l []]. Qed.

Lemma noBlankLines_line (l : string) :
  hasChar LF l = false -> nonBlank l = true -> noBlankLines l.
Proof.
  intros H1 H2. exists [l]. split; [reflexivity|].
  intros x [<-|[]]. now split.
Qed.

Lemma cleanLines_join_truthy (ls : list string) :
  cleanLines ls -> ls <> [] -> truthy (join nl ls) = true.
Proof.
  intros Hls Hne. destruct ls as [|l ls]; [contradiction|].
  destruct (Hls l (or_introl eq_refl)) as [_ Hl].
  apply nonBlank_truthy in Hl.
  destruct ls; [exact Hl|]. rewrite join_cons.
  destruct l; [discriminate | reflexivity].
Qed.

(** Appending a non-blank line keeps the text free of blank lines. *)
Lemma noBlankLines_appendLine (r line : string) :
  noBlankLines r -> hasChar LF line = false -> nonBlank line = true ->
  noBlankLines (appendLine r line).
Proof.
  intros (ls & -> & Hls) H1 H2. unfold appendLine.
  destruct (truthy (join nl ls)) eqn:T.
  - assert (Hne : ls <> []) by (intros ->; discriminate T).
    exists (ls ++ [line]). split.
    + now rewrite join_snoc, append_assoc.
    + intros x Hx. apply in_app_or in Hx as [Hx|[<-|[]]]; [now apply Hls | now split].
  - apply truthy_false in T. rewrite T. now apply noBlankLines_line.
Qed.

Lemma nonBlank_trim (s : string) : truthy (trim s) = true -> nonBlank (trim s) = true.
Proof. unfold nonBlank. now rewrite trim_idempotent. Qed.

Lemma noBlankLines_checkMarkers (line : string) (st : scanState) :
  hasChar LF line = false ->
  noBlankLines (response st) ->
  forall markers, noBlankLines (response (checkMarkers markers line st)).
Proof.
  intros Hline Hst. induction markers as [|mk markers IH]; [exact Hst|].
  cbn [checkMarkers]. destruct (includes mk line); [|exact IH].
  cbv zeta. cbn [response].
  destruct (truthy (trim (substring _ line))) eqn:T; [|exact Hst].
  apply noBlankLines_line.
  - apply hasChar_trim. unfold substring. now apply hasChar_substringFrom.
  - now apply nonBlank_trim.
Qed.

Lemma noBlankLines_collectLine (i : nat) (line : string) (st : scanState) :
  hasChar LF line = false ->
  noBlankLines (response st) ->
  noBlankLines (response (collectLine i line st)).
Proof.
  intros Hline Hst. unfold collectLine. cbv zeta.
  destruct (inResponse st && (0 <? i)); [|exact Hst].
  destruct (negb (truthy (response st)) && negb (truthy (trim line)));
    [exact Hst|].
  destruct (truthy (trim line)) eqn:T; [|exact Hst].
  cbn [response]. now apply (noBlankLines_appendLine (response st) line).
Qed.

Lemma noBlankLines_scan (rest : list string) :
  (forall l, In l rest -> hasChar LF l = false) ->
  forall i st,
    noBlankLines (response st) ->
    noBlankLines (response (scan i rest st)).
Proof.
  induction rest as [|line rest IH]; intros Hrest i st Hst; [exact Hst|].
  rewrite scan_cons. destruct (hitsEndMarker line && inResponse st); [exact Hst|].
  apply IH; [intros; apply Hrest; now right|].
  assert (Hline : hasChar LF line = false) by (apply Hrest; now left).
  apply noBlankLines_collectLine; [exact Hline|].
  now apply noBlankLines_checkMarkers.
Qed.

Lemma collectUntilEnd_clean (rest : list string) :
  (forall l, In l rest -> hasChar LF l = false) ->
  cleanLines (collectUntilEnd rest).
Proof.
  induction rest as [|line rest IH]; intros Hrest l Hl; [destruct Hl|].
  simpl in Hl. destruct (hitsEndMarker line); [destruct Hl|].
  assert (IH' := IH (fun x Hx => Hrest x (or_intror Hx))).
  destruct (truthy (trim line)) eqn:T; [|now apply IH'].
  destruct Hl as [<-|Hl]; [|now apply IH'].
  split; [apply Hrest; now left | exact T].
Qed.

Lemma In_skipn {A : Type} (n : nat) (l : list A) (x : A) :
  In x (skipn n l) -> In x l.
Proof.
  revert l. induction n as [|n IH]; intros l H; [exact H|].
  destruct l as [|a l]; [destruct H|]. right. now apply IH.
Qed.

(** Trimming keeps the text free of blank lines: only the first line
    loses white space in front, only the last loses white space behind. *)
Lemma noBlankLines_trimStart (s : string) :
  noBlankLines s -> noBlankLines (trimStart s).
Proof.
  intros (ls & -> & Hls). destruct ls as [|l ls]; [apply noBlankLines_empty|].
  destruct (Hls l (or_introl eq_refl)) as [H1 H2].
  assert (W : allWhite l = false)
    by (rewrite nonBlank_allWhite in H2; now destruct (allWhite l)).
  exists (trimStart l :: ls). split.
  - destruct ls as [|l2 ls]; [reflexivity|].
    rewrite !join_cons. now apply trimStart_append.
  - intros x [<-|Hx]; [|apply Hls; now right]. split.
    + now apply hasChar_trimStart.
    + now rewrite nonBlank_allWhite, allWhite_trimStart, W.
Qed.

Lemma cleanLines_not_white (ls : list string) :
  cleanLines ls -> ls <> [] -> allWhite (join nl ls) = false.
Proof.
  intros Hls Hne. rewrite allWhite_join by reflexivity.
  destruct ls as [|l ls]; [contradiction|].
  destruct (Hls l (or_introl eq_refl)) as [_ H2].
  rewrite nonBlank_allWhite in H2. simpl.
  now destruct (allWhite l).
Qed.

Lemma trimEnd_join (ls : list string) :
  cleanLines ls -> ls <> [] ->
  exists ls', trimEnd (join nl ls) = join nl ls' /\ cleanLines ls' /\ ls' <> [].
Proof.
  induction ls as [|l ls IH]; intros Hls Hne; [contradiction|].
  destruct (Hls l (or_introl eq_refl)) as [H1 H2].
  destruct ls as [|l2 ls].
  - exists [trimEnd l]. split; [reflexivity | split; [|discriminate]].
    intros x [<-|[]]. split.
    + now apply hasChar_trimEnd.
    + rewrite nonBlank_allWhite, allWhite_trimEnd, <- nonBlank_allWhite. exact H2.
  - assert (Hls' : cleanLines (l2 :: ls)) by (intros x Hx; apply Hls; now right).
    destruct (IH Hls') as (ls' & E & Hc & Hn); [discriminate|].
    exists (l :: ls'). split; [|split].
    + rewrite join_cons.
      assert (W : allWhite (join nl (l2 :: ls)) = false)
        by (apply cleanLines_not_white; [exact Hls' | discriminate]).
      rewrite trimEnd_append
        by (rewrite allWhite_append, W; apply andb_false_r).
      rewrite (trimEnd_append nl) by exact W.
      rewrite E. destruct ls'; [contradiction | reflexivity].
    + intros x [<-|Hx]; [now split | now apply Hc].
    + discriminate.
Qed.

Lemma noBlankLines_trim (s : string) : noBlankLines s -> noBlankLines (trim s).
Proof.
  intros H. apply noBlankLines_trimStart in H.
  unfold trim. destruct H as (ls & -> & Hls).
  destruct ls as [|l ls]; [apply noBlankLines_empty|].
  destruct (trimEnd_join (l :: ls) Hls) as (ls' & -> & Hc & _); [discriminate|].
  now exists ls'.
Qed.

(** Cutting the text at a line feed followed by a performance label
    keeps the lines before it. *)
Lemma noBlankLines_replace (x s : string) :
  noBlankLines s ->
  noBlankLines (replace flag_s (perfPattern x) EmptyString s).
Proof.
  intros H. unfold perfPattern.
  destruct (replace_to_end (nl ++ x) s) as [->|(a & b & E & ->)]; [exact H|].
  destruct H as (ls & -> & Hls).
  unfold nl in E. cbn [append] in E.
  destruct (join_cut LF ls (fun l Hl => proj1 (Hls l Hl)) a _ E)
    as (ls' & -> & _ & Hsub).
  exists ls'. split; [reflexivity|].
  intros l Hl. now apply Hls, Hsub.
Qed.

Lemma noBlankLines_cleanup (patterns : list string) :
  forall s,
    noBlankLines s ->
    noBlankLines
      (fold_left (fun resp pattern => trim (replace flag_s pattern EmptyString resp))
                 (map perfPattern patterns) s).
Proof.
  induction patterns as [|x patterns IH]; intros s H; [exact H|].
  cbn [map fold_left]. apply IH.
  now apply noBlankLines_trim, noBlankLines_replace.
Qed.

Lemma parse_lines_nonBlank (output line : string) :
  In line (split LF (parseLiteRTOutput output)) -> nonBlank line = true.
Proof.
  assert (Hlines : forall l, In l (split LF output) -> hasChar LF l = false)
    by (intros l; apply split_no_sep).
  unfold parseLiteRTOutput. cbv zeta.
  set (lines := split LF output) in *.
  set (start := startIndex lines).
  set (st := scan start (skipn start lines) initialState).
  set (raw := if negb (foundResponseMarker st) && (start <? List.length lines)
              then join nl (collectUntilEnd (skipn start lines))
              else response st).
  assert (Hrest : forall l, In l (skipn start lines) -> hasChar LF l = false)
    by (intros l Hl; apply Hlines; now apply In_skipn in Hl).
  assert (Hraw : noBlankLines raw).
  { unfold raw.
    destruct (negb (foundResponseMarker st) && (start <? List.length lines)).
    - exists (collectUntilEnd (skipn start lines)). split; [reflexivity|].
      now apply collectUntilEnd_clean.
    - apply noBlankLines_scan; [exact Hrest | apply noBlankLines_empty]. }
  change perfPatterns with (map perfPattern perfLabels).
  pose proof (noBlankLines_cleanup perfLabels (trim raw)
                (noBlankLines_trim raw Hraw)) as Hclean.
  destruct (truthy _) eqn:T.
  - destruct Hclean as (ls & E & Hls). rewrite E in T |- *.
    assert (Hne : ls <> []) by (intros ->; discriminate T).
    unfold nl. rewrite split_join; [|exact Hne|intros l Hl; now apply Hls].
    intros Hin. now apply Hls.
  - intros [<-|[]]. reflexivity.
Qed.

(** C5 (as amended): blank lines of the response body are dropped wherever
    they stand, inside the body as well as before its first content.  For
    every input no line of the returned answer is blank; and when the first
    line is a response marker and the lines up to the first end marker hold
    no marker, the answer is the non-blank ones among them, joined by single
    line feeds and trimmed (the sentinel when there is none). *)
Theorem parse_drops_blank_lines :
  (forall output : string,
     Forall (fun line => nonBlank line = true)
            (split LF (parseLiteRTOutput output)))
  /\ (forall (output m : string) (body : list string) (e : string)
             (rest : list string),
        split LF output = m :: body ++ e :: rest ->
        In m responseMarkers ->
        (forall l, In l body ->
           mentionsMarker l = false /\ hitsEndMarker l = false) ->
        hitsEndMarker e = true ->
        parseLiteRTOutput output =
        let t := trim (join nl (filter nonBlank body)) in
        if truthy t then t else noResponse).
Proof.
  split.
  - intros output. apply Forall_forall. intros line.
    apply parse_lines_nonBlank.
  - intros output m body e rest. apply parse_marker_first.
Qed.

Lemma parse_drops_blank_lines_witness :
  Forall (fun line => nonBlank line = true)
         (split LF (parseLiteRTOutput Scenarios.twoParagraphs))
  /\ parseLiteRTOutput Scenarios.twoParagraphs =
     (let t := trim (join nl (filter nonBlank ["foo"; EmptyString; "bar"])) in
      if truthy t then t else noResponse).
Proof.
  split.
  - apply (proj1 parse_drops_blank_lines).
  - apply (proj2 parse_drops_blank_lines Scenarios.twoParagraphs "Response:"
             ["foo"; EmptyString; "bar"] "---" []).
    + reflexivity.
    + simpl. tauto.
    + intros l [<-|[<-|[<-|[]]]]; split; reflexivity.
    + reflexivity.
Defined.

(** C5 (as stated) fails: the empty line between [foo] and [bar] is not
    in the answer. *)
Lemma interior_blank_line_dropped : ~ Spec.interiorBlankPreserved.
Proof.
  intros H.
  specialize (H Scenarios.twoParagraphs "Response:" "foo" [EmptyString] "bar"
                "---" []).
  assert (E : parseLiteRTOutput Scenarios.twoParagraphs = ("foo" ++ nl ++ "bar")%string)
    by (vm_compute; reflexivity).
  rewrite E in H.
  assert (C : ("foo" ++ nl ++ "bar")%string
              = trim (join nl ("foo" :: map (fun l => if nonBlank l then l else EmptyString)
                                           [EmptyString] ++ ["bar"]))).
  { apply H; try reflexivity.
    - simpl. tauto.
    - intros l [<-|[<-|[<-|[]]]]; split; reflexivity. }
  vm_compute in C. discriminate.
Qed.

End ParserFacts.

(* ------------------------------------------------------------------ *)
(** ** Properties of server.js *)

Module ServerFacts.
Import JsString Parser Server StringFacts.

(** *** The close handler *)

Lemma prefix_first_line (c : ascii) (n : string) :
  hasChar c n = false ->
  forall s, prefix n s = true -> prefix n (hd EmptyString (split c s)) = true.
Proof.
  induction n as [|d n IH]; intros Hn s H; [apply prefix_nil|].
  simpl in Hn. apply orb_false_iff in Hn as [Hd Hn].
  destruct s as [|e s]; [discriminate|].
  rewrite prefix_cons in H. apply andb_true_iff in H as [He H].
  apply Ascii.eqb_eq in He. subst e.
  simpl split. rewrite Hd.
  specialize (IH Hn s H).
  destruct (split c s) as [|w ws] eqn:S; [now apply split_nonempty in S|].
  simpl in IH |- *. destruct (ascii_dec d d); [exact IH | congruence].
Qed.

(** A needle without line feed that occurs in a text occurs in one of its
    lines. *)
Lemma includes_some_line (c : ascii) (n s : string) :
  hasChar c n = false ->
  includes n s = true -> existsb (includes n) (split c s) = true.
Proof.
  intros Hn. induction s as [|e s IH]; intros H.
  - cbn [split existsb]. now rewrite H.
  - rewrite includes_cons in H. apply orb_true_iff in H as [H|H].
    + apply (prefix_first_line c n Hn) in H.
      destruct (split c (String e s)) as [|l ls] eqn:S;
        [now apply split_nonempty in S|].
      cbn [hd existsb] in H |- *. now rewrite (includes_prefix _ _ H).
    + specialize (IH H). cbn [split].
      destruct (Ascii.eqb e c).
      * cbn [existsb]. rewrite IH. apply orb_true_r.
      * destruct (split c s) as [|w ws]; [discriminate|].
        cbn [existsb] in IH |- *. apply orb_true_iff in IH as [IH|IH].
        -- rewrite includes_cons, IH, orb_true_r. reflexivity.
        -- rewrite IH. apply orb_true_r.
Qed.

(** [find] returns the first element that passes the test. *)
Lemma find_first {A : Type} (p : A -> bool) (l : list A) :
  existsb p l = true ->
  exists before x after,
    l = before ++ x :: after
    /\ (forall y, In y before -> p y = false)
    /\ p x = true
    /\ find p l = Some x.
Proof.
  induction l as [|a l IH]; intros H; [discriminate|].
  simpl in H. destruct (p a) eqn:E.
  - exists [], a, l. simpl. rewrite E. repeat split; auto. intros y [].
  - simpl in H. destruct (IH H) as (before & x & after & -> & Hb & Hx & Hf).
    exists (a :: before), x, after. simpl. rewrite E.
    repeat split; auto. intros y [<-|Hy]; auto.
Qed.

(** C8 (as amended): after a non-zero exit, a stderr that holds the fatal
    prefix F0000 rejects with the fatal message carrying the first stderr
    line that holds the prefix; a stderr that holds only the check-failure
    marker rejects with the fatal message carrying the text
    [Unknown fatal error]; any other stderr rejects with the message that
    carries the exit code and the whole stderr text. *)
Theorem runLiteRT_nonzero_exit :
  forall (code : Z) (output error : string),
    code <> 0%Z ->
    (includes "F0000" error = true ->
       exists before line after,
         split LF error = before ++ line :: after
         /\ (forall l, In l before -> includes "F0000" l = false)
         /\ includes "F0000" line = true
         /\ runLiteRT (Closed code output error)
            = Rejected ("LiteRT fatal error: " ++ line))
    /\ (includes "F0000" error = false ->
        includes "Check failure" error = true ->
        runLiteRT (Closed code output error)
        = Rejected ("LiteRT fatal error: " ++ unknownFatal))
    /\ (includes "F0000" error = false ->
        includes "Check failure" error = false ->
        runLiteRT (Closed code output error)
        = Rejected ("LiteRT process exited with code " ++ showCode code
                    ++ ": " ++ error)).
Proof.
  intros code output error Hcode.
  apply Z.eqb_neq in Hcode.
  repeat split.
  - intros HF.
    destruct (find_first (fun l => includes "F0000" l) (split LF error))
      as (before & line & after & Hs & Hb & Hl & Hf).
    { apply (includes_some_line LF "F0000" error); [reflexivity | exact HF]. }
    exists before, line, after. repeat split; auto.
    unfold runLiteRT. rewrite Hcode, HF, orb_true_r. cbn [negb].
    cbv zeta. rewrite Hf.
    destruct line; [discriminate | reflexivity].
  - intros HF HC. unfold runLiteRT. rewrite Hcode, HF, HC. cbn [negb orb].
    cbv zeta.
    destruct (find (fun line => includes "F0000" line) (split LF error))
      as [line|] eqn:Hf; [|reflexivity].
    apply find_some in Hf as [Hin Hl].
    assert (includes "F0000" error = true); [|congruence].
    rewrite <- (join_split LF error).
    clear - Hin Hl. induction (split LF error) as [|l ls IH]; [destruct Hin|].
    destruct ls as [|l2 ls].
    + destruct Hin as [<-|[]]. exact Hl.
    + rewrite join_cons. destruct Hin as [<-|Hin].
      * now apply includes_append_l.
      * apply includes_append_r, includes_append_r. now apply IH.
  - intros HF HC. unfold runLiteRT. now rewrite Hcode, HF, HC.
Qed.

Lemma runLiteRT_nonzero_exit_witness :
  (includes "F0000" Scenarios.fatalStderr = true ->
     exists before line after,
       split LF Scenarios.fatalStderr = before ++ line :: after
       /\ (forall l, In l before -> includes "F0000" l = false)
       /\ includes "F0000" line = true
       /\ runLiteRT (Closed 1 EmptyString Scenarios.fatalStderr)
          = Rejected ("LiteRT fatal error: " ++ line))
  /\ (includes "F0000" Scenarios.fatalStderr = false ->
      includes "Check failure" Scenarios.fatalStderr = true ->
      runLiteRT (Closed 1 EmptyString Scenarios.fatalStderr)
      = Rejected ("LiteRT fatal error: " ++ unknownFatal))
  /\ (includes "F0000" Scenarios.fatalStderr = false ->
      includes "Check failure" Scenarios.fatalStderr = false ->
      runLiteRT (Closed 1 EmptyString Scenarios.fatalStderr)
      = Rejected ("LiteRT process exited with code " ++ showCode 1
                  ++ ": " ++ Scenarios.fatalStderr)).
Proof.
  apply (runLiteRT_nonzero_exit 1 EmptyString Scenarios.fatalStderr).
  discriminate.
Defined.

(** C8 (as stated) fails: a stderr with the check-failure marker and no
    fatal prefix has no line to carry; the message carries
    [Unknown fatal error]. *)
Lemma fatal_without_fatal_line : ~ Spec.fatalCarriesFatalLine.
Proof.
  intros H.
  destruct (H 1%Z EmptyString Scenarios.checkFailureStderr) as [line [Hf _]].
  - discriminate.
  - reflexivity.
  - vm_compute in Hf. discriminate.
Qed.

(** The scenario of the specification: the fatal line itself is carried. *)
Example runLiteRT_fatal_scenario :
  runLiteRT (Closed 1 EmptyString Scenarios.fatalStderr)
  = Rejected ("LiteRT fatal error: " ++ Scenarios.fatalStderr).
Proof. reflexivity. Qed.

(** C9: after exit code 0 the promise resolves, with the parse of stdout
    when that is usable (non-empty and not the sentinel), else with the
    parse of stderr when that is usable, else with the fallback greeting;
    it never rejects. *)
Theorem runLiteRT_exit_zero :
  forall (output error : string),
    let fromStdout := parseLiteRTOutput output in
    let fromStderr := parseLiteRTOutput error in
    runLiteRT (Closed 0 output error)
    = Resolved (if usable fromStdout then fromStdout
                else if usable fromStderr then fromStderr
                else fallbackGreeting)
    /\ (forall message, runLiteRT (Closed 0 output error) <> Rejected message).
Proof.
  intros output error fromStdout fromStderr.
  assert (E : runLiteRT (Closed 0 output error)
              = Resolved (if usable fromStdout then fromStdout
                          else if usable fromStderr then fromStderr
                          else fallbackGreeting)).
  { unfold runLiteRT, usable. cbn [Z.eqb negb]. cbv zeta.
    fold fromStdout fromStderr.
    destruct (truthy fromStdout), (fromStdout =? noResponse)%string; cbn;
      try reflexivity;
      destruct (truthy fromStderr), (fromStderr =? noResponse)%string;
      reflexivity. }
  split; [exact E | intros message; rewrite E; discriminate].
Qed.

(** *** The chunking loop *)

Lemma streamLoop_step (fuel : nat) (words : list string) (i : nat) :
  streamLoop (S fuel) words i =
  if i <? List.length words then
    append (join " " (slice i (i + chunkSize) words))
           (if i + chunkSize <? List.length words then " " else EmptyString)
    :: streamLoop fuel words (i + chunkSize)
  else [].
Proof. reflexivity. Qed.

Lemma slice_window (words : list string) (k : nat) :
  slice (5 * k) (5 * k + chunkSize) words = window words k.
Proof.
  unfold slice, window, chunkSize.
  now replace (5 * k + 5 - 5 * k) with 5 by lia.
Qed.

(** The loop started at the [k]-th window yields the chunks of the windows
    from [k] on, as soon as the fuel covers the words that are left. *)
Lemma streamLoop_windows (words : list string) :
  forall fuel k,
    List.length words <= fuel + 5 * k ->
    streamLoop fuel words (5 * k) =
    map (chunkAt words) (seq k ((List.length words + 4) / 5 - k)).
Proof.
  induction fuel as [|fuel IH]; intros k Hfuel.
  - replace ((List.length words + 4) / 5 - k) with 0
      by (pose proof (Nat.div_mod_eq (List.length words + 4) 5);
          pose proof (Nat.mod_upper_bound (List.length words + 4) 5); lia).
    reflexivity.
  - rewrite streamLoop_step.
    pose proof (Nat.div_mod_eq (List.length words + 4) 5) as D.
    pose proof (Nat.mod_upper_bound (List.length words + 4) 5) as M.
    destruct (5 * k <? List.length words) eqn:E.
    + apply Nat.ltb_lt in E.
      replace ((List.length words + 4) / 5 - k)
        with (S ((List.length words + 4) / 5 - S k)) by lia.
      cbn [seq map]. f_equal.
      * unfold chunkAt. now rewrite slice_window.
      * replace (5 * k + chunkSize) with (5 * S k) by (unfold chunkSize; lia).
        apply IH. lia.
    + apply Nat.ltb_ge in E.
      replace ((List.length words + 4) / 5 - k) with 0 by lia.
      reflexivity.
Qed.

Lemma streamLoop_from_start (words : list string) (fuel : nat) :
  List.length words <= fuel ->
  streamLoop fuel words 0 =
  map (chunkAt words) (seq 0 ((List.length words + 4) / 5)).
Proof.
  intros H. pose proof (streamLoop_windows words fuel 0) as P.
  rewrite Nat.mul_0_r, Nat.add_0_r, Nat.sub_0_r in P. exact (P H).
Qed.

(** More fuel than the number of words changes nothing. *)
Lemma streamLoop_enough_fuel (words : list string) (fuel : nat) :
  List.length words <= fuel ->
  streamLoop fuel words 0 = streamLoop (List.length words) words 0.
Proof.
  intros H. rewrite (streamLoop_from_start words fuel H).
  now rewrite (streamLoop_from_start words (List.length words) (le_n _)).
Qed.

(** C6 (as amended): the answer is split at every single space character
    (other white space separates nothing, two spaces in a row enclose an
    empty word); the words are grouped into consecutive windows of five,
    the fixed chunk size; each window is joined with single spaces and
    yielded with one more space unless it is the last.  In particular
    [a b c d e f g] yields [a b c d e ] and then [f g]. *)
Theorem streamResponse_windows :
  forall answer : string,
    let words := split " "%char answer in
    join " " words = answer
    /\ Forall (fun w => hasChar " " w = false) words
    /\ streamResponse answer =
       map (chunkAt words) (seq 0 ((List.length words + 4) / 5))
    /\ streamResponse "a b c d e f g" = ["a b c d e "; "f g"].
Proof.
  intros answer words. repeat split.
  - apply (join_split " "%char).
  - apply Forall_forall. intros w. apply split_no_sep.
  - unfold streamResponse. fold words.
    apply streamLoop_from_start, le_n.
Qed.

(** C6 (as stated) fails: a line feed is white space but separates no
    words in [streamResponse]. *)
Lemma streamResponse_splits_on_space_only :
  streamResponse (String "a" (String LF "b"))
  <> Spec.synthesize (String "a" (String LF "b")) 5.
Proof. vm_compute. discriminate. Qed.

(** The loop yields at least one chunk for every string, and for the empty
    string the one chunk is empty ([''.split(' ')] is [['']]).  The empty
    string is no answer of [runLiteRT], so [streamResponse] never chunks
    it. *)
Lemma streamResponse_empty_answer :
  streamResponse EmptyString = [EmptyString]
  /\ forall answer : string, streamResponse answer <> [].
Proof.
  split; [reflexivity|].
  intros answer. unfold streamResponse.
  destruct (split " " answer) as [|w ws] eqn:S; [now apply split_nonempty in S|].
  cbn [List.length]. rewrite streamLoop_step. cbn [List.length Nat.ltb Nat.leb].
  discriminate.
Qed.

(** *** Concatenating the chunks *)

Lemma fold_left_append (chunks : list string) (acc : string) :
  fold_left (fun a chunk => (a ++ chunk)%string) chunks acc =
  (acc ++ fold_right append EmptyString chunks)%string.
Proof.
  revert acc. induction chunks as [|c chunks IH]; intros acc; simpl.
  - now rewrite append_nil_r.
  - now rewrite IH, append_assoc.
Qed.

(** Cutting a list after [n > 0] elements and joining the two parts, with
    a separator between them when the second is not empty, is joining the
    list. *)
Lemma join_firstn_skipn (sep : string) (l : list string) :
  forall n,
    0 < n ->
    append (join sep (firstn n l))
           (append (if n <? List.length l then sep else EmptyString)
                   (join sep (skipn n l)))
    = join sep l.
Proof.
  induction l as [|x l IH]; intros n Hn.
  - destruct n; reflexivity.
  - destruct n as [|n]; [lia|].
    cbn [firstn skipn List.length].
    change (S n <? S (List.length l)) with (n <? List.length l).
    destruct n as [|n].
    + cbn [firstn skipn join]. destruct l as [|y l]; [cbn; apply append_nil_r|].
      reflexivity.
    + destruct l as [|y l]; [cbn; apply append_nil_r|].
      rewrite (join_cons sep x y l), <- (IH (S n)) by lia.
      cbn [firstn]. now rewrite !join_cons, !append_assoc.
Qed.

Lemma concat_streamLoop (words : list string) :
  forall fuel i,
    List.length words <= fuel + i ->
    fold_right append EmptyString (streamLoop fuel words i)
    = join " " (skipn i words).
Proof.
  induction fuel as [|fuel IH]; intros i Hfuel.
  - cbn. now rewrite skipn_all2 by lia.
  - rewrite streamLoop_step. destruct (i <? List.length words) eqn:E.
    + apply Nat.ltb_lt in E. cbn [fold_right].
      rewrite IH by (unfold chunkSize; lia).
      unfold slice. replace (i + chunkSize - i) with chunkSize by lia.
      rewrite <- (join_firstn_skipn " " (skipn i words) chunkSize)
        by (unfold chunkSize; lia).
      rewrite skipn_skipn, length_skipn, append_assoc.
      replace (chunkSize + i) with (i + chunkSize) by lia.
      replace (chunkSize <? List.length words - i)
        with (i + chunkSize <? List.length words); [reflexivity|].
      destruct (i + chunkSize <? List.length words) eqn:E1;
        destruct (chunkSize <? List.length words - i) eqn:E2;
        try reflexivity;
        repeat match goal with
               | H : (_ <? _) = true |- _ => apply Nat.ltb_lt in H
               | H : (_ <? _) = false |- _ => apply Nat.ltb_ge in H
               end; lia.
    + apply Nat.ltb_ge in E. cbn. now rewrite skipn_all2 by lia.
Qed.

(** C10: the chunks of an answer, concatenated in the order they are
    yielded, are the answer. *)
Theorem streamResponse_concat :
  forall answer : string, totalTokens (streamResponse answer) = answer.
Proof.
  intros answer. unfold totalTokens, streamResponse.
  rewrite fold_left_append. cbn [append].
  rewrite concat_streamLoop by lia.
  cbn [skipn]. apply (join_split " "%char).
Qed.

End ServerFacts.

(* ------------------------------------------------------------------ *)
(** ** More properties of litert-parser.js *)

Module ParserMore.
Import JsString Regex Parser OutputShapes StringFacts RegexFacts ParserFacts.

(** Case analysis on the last test of [parseLiteRTOutput]. *)
Ltac split_on_cleaned T :=
  match goal with
  | |- context [if truthy ?c then ?c else noResponse] => destruct (truthy c) eqn:T
  end.

(** *** The shape of every answer *)

Lemma cleanup_trimmed (patterns : list regex) :
  forall s,
    trim s = s ->
    trim (fold_left (fun resp pattern => trim (replace flag_s pattern EmptyString resp))
                    patterns s)
    = fold_left (fun resp pattern => trim (replace flag_s pattern EmptyString resp))
                patterns s.
Proof.
  induction patterns as [|p patterns IH]; intros s H; [exact H|].
  cbn [fold_left]. apply IH, trim_idempotent.
Qed.

Lemma parse_trimmed (output : string) :
  trim (parseLiteRTOutput output) = parseLiteRTOutput output.
Proof.
  unfold parseLiteRTOutput. cbv zeta. split_on_cleaned T; [|reflexivity].
  apply cleanup_trimmed, trim_idempotent.
Qed.

Lemma parse_truthy (output : string) : truthy (parseLiteRTOutput output) = true.
Proof.
  unfold parseLiteRTOutput. cbv zeta.
  split_on_cleaned T; [exact T | reflexivity].
Qed.

(** X1: every answer is non-empty and trimmed: it neither starts nor ends
    with white space. *)
Theorem parse_nonempty_and_trimmed :
  forall output : string,
    parseLiteRTOutput output <> EmptyString
    /\ trim (parseLiteRTOutput output) = parseLiteRTOutput output.
Proof.
  intros output. split; [|apply parse_trimmed].
  apply truthy_true, parse_truthy.
Qed.

(** *** No performance trailer *)

Lemma includes_prefix_part (n a b : string) :
  includes n (a ++ b) = false -> includes n a = false.
Proof.
  intros H. destruct (includes n a) eqn:E; [|reflexivity].
  now rewrite (includes_append_l n a b E) in H.
Qed.

(** The leftmost match: nothing before it holds the literal. *)
Lemma searchFrom_leftmost (x : string) :
  forall s pos m,
    searchFrom flag_s (Seq (Lit x) (Seq (Star true Dot) Eol)) pos s = Some m ->
    exists a b,
      s = (a ++ x ++ b)%string
      /\ matchStart m = pos + String.length a
      /\ matchEnd m = pos + String.length s
      /\ (x <> EmptyString -> includes x a = false).
Proof.
  induction s as [|c s IH]; intros pos m H; cbn [searchFrom] in H;
    rewrite run_to_end in H.
  - destruct (prefix x EmptyString) eqn:P; [|discriminate].
    injection H as <-. exists EmptyString, (substringFrom (String.length x) EmptyString).
    cbn [matchStart matchEnd append String.length].
    repeat split; [now apply prefix_split | lia |].
    intros Hx. destruct x; [contradiction | reflexivity].
  - destruct (prefix x (String c s)) eqn:P.
    + injection H as <-.
      exists EmptyString, (substringFrom (String.length x) (String c s)).
      cbn [matchStart matchEnd append String.length].
      repeat split; [now apply prefix_split | lia |].
      intros Hx. destruct x; [contradiction | reflexivity].
    + destruct (IH _ _ H) as (a & b & -> & Hs & He & Ha).
      exists (String c a), b. cbn [append String.length].
      repeat split; try lia.
      intros Hx. rewrite includes_cons, (Ha Hx), orb_false_r.
      destruct (prefix x (String c a)) eqn:Q; [|reflexivity].
      pose proof (prefix_append x (String c a) (x ++ b) Q) as Q'.
      cbn [append] in Q'. congruence.
Qed.

(** After the replacement the text holds the literal no more. *)
Lemma replace_removes (x s : string) :
  x <> EmptyString ->
  includes x (replace flag_s (Seq (Lit x) (Seq (Star true Dot) Eol)) EmptyString s)
  = false.
Proof.
  intros Hx. unfold replace, exec.
  destruct (searchFrom flag_s _ 0 s) as [m|] eqn:E.
  - destruct (searchFrom_leftmost x s 0 m E) as (a & b & Hs & Hstart & Hend & Ha).
    cbn [Nat.add] in Hstart, Hend.
    rewrite Hstart, Hend, substringFrom_length. cbn [append].
    rewrite append_nil_r. subst s. rewrite substringTo_append. now apply Ha.
  - destruct (includes x s) eqn:I; [|reflexivity].
    exfalso. clear Hx. revert E. generalize 0 as pos.
    induction s as [|c s IH]; intros pos E; cbn [searchFrom] in E;
      rewrite run_to_end in E.
    + cbn [includes] in I. rewrite orb_false_r in I. now rewrite I in E.
    + rewrite includes_cons in I.
      destruct (prefix x (String c s)); [discriminate|].
      now apply (IH I (S pos)).
Qed.

(** The replacement never brings in a text that was not there. *)
Lemma replace_keeps_absent (x y s : string) :
  includes y s = false ->
  includes y (replace flag_s (Seq (Lit x) (Seq (Star true Dot) Eol)) EmptyString s)
  = false.
Proof.
  intros H. destruct (replace_to_end x s) as [->|(a & b & E & ->)]; [exact H|].
  subst s. now apply (includes_prefix_part y a (x ++ b)).
Qed.

Lemma cleanup_removes_labels (labels : list string) :
  forall s y,
    In y labels \/ includes (nl ++ y) s = false ->
    includes (nl ++ y)
      (fold_left (fun resp pattern => trim (replace flag_s pattern EmptyString resp))
                 (map perfPattern labels) s)
    = false.
Proof.
  induction labels as [|x labels IH]; intros s y H.
  - destruct H as [[]|H]. exact H.
  - cbn [map fold_left]. apply IH.
    destruct H as [[<-|Hy]|H].
    + right. apply includes_trim_false. unfold perfPattern.
      apply replace_removes. discriminate.
    + now left.
    + right. apply includes_trim_false. unfold perfPattern.
      now apply replace_keeps_absent.
Qed.

(** X2: no answer holds a line break followed by one of the performance
    labels [Prefill:], [Decode:], [Peak memory], [Tokens/sec]: a trailer
    of metrics that starts on a later line is cut off. *)
Theorem parse_has_no_metrics_trailer :
  forall output : string,
    Forall (fun label => includes (nl ++ label) (parseLiteRTOutput output) = false)
           perfLabels.
Proof.
  intros output. apply Forall_forall. intros y Hy.
  unfold parseLiteRTOutput. cbv zeta. split_on_cleaned T.
  - change perfPatterns with (map perfPattern perfLabels).
    apply cleanup_removes_labels. now left.
  - unfold perfLabels in Hy. for_each_member Hy.
Qed.

(** *** Output without markers *)

Lemma skipLogs_past_logs (logs : list string) (first : string) (rest : list string) :
  (forall l, In l logs -> startsOutput l = false) ->
  startsOutput first = true ->
  forall i, skipLogs i (logs ++ first :: rest) = i + List.length logs.
Proof.
  intros Hlogs Hfirst. induction logs as [|l logs IH]; intros i.
  - cbn. rewrite Hfirst. lia.
  - cbn [app skipLogs List.length]. rewrite (Hlogs l (or_introl eq_refl)).
    rewrite IH by (intros; apply Hlogs; now right). lia.
Qed.

Lemma skipn_past {A : Type} (l l' : list A) : skipn (List.length l) (l ++ l') = l'.
Proof. induction l as [|a l IH]; [reflexivity | exact IH]. Qed.

(** Outside a response, lines without markers leave the state alone. *)
Lemma scan_without_markers (lines : list string) :
  forall i st,
    inResponse st = false ->
    (forall l, In l lines -> mentionsMarker l = false) ->
    scan i lines st = st.
Proof.
  induction lines as [|l lines IH]; intros i st Hst Hlines; [reflexivity|].
  rewrite scan_cons, Hst, andb_false_r.
  rewrite (checkMarkers_no_marker l st) by (apply Hlines; now left).
  assert (E : collectLine i l st = st)
    by (unfold collectLine; now rewrite Hst).
  rewrite E. apply IH; [exact Hst | intros; apply Hlines; now right].
Qed.

Lemma collectUntilEnd_body (body tail : list string) :
  (forall l, In l body -> hitsEndMarker l = false) ->
  closesBody tail = true ->
  collectUntilEnd (body ++ tail) = filter nonBlank body.
Proof.
  intros Hbody Htail. induction body as [|l body IH].
  - destruct tail as [|e tail]; [reflexivity|]. cbn in Htail |- *. now rewrite Htail.
  - cbn [app collectUntilEnd filter]. rewrite (Hbody l (or_introl eq_refl)).
    rewrite IH by (intros; apply Hbody; now right). reflexivity.
Qed.

(** The answer for an output without markers: the log lines at the top
    are skipped, the non-blank lines up to the first end marker are
    joined. *)
Lemma parse_without_markers (output : string) (logs : list string)
      (first : string) (more tail : list string) :
  split LF output = logs ++ (first :: more) ++ tail ->
  (forall l, In l logs -> startsOutput l = false) ->
  startsOutput first = true ->
  (forall l, In l (first :: more) -> hitsEndMarker l = false) ->
  (forall l, In l ((first :: more) ++ tail) -> mentionsMarker l = false) ->
  closesBody tail = true ->
  parseLiteRTOutput output = trim (join nl (filter nonBlank (first :: more))).
Proof.
  intros Hsplit Hlogs Hfirst Hend Hmark Htail.
  assert (Hnb : nonBlank first = true).
  { unfold startsOutput in Hfirst. apply andb_true_iff in Hfirst. apply Hfirst. }
  unfold parseLiteRTOutput. rewrite Hsplit. cbv zeta.
  unfold startIndex. change ((first :: more) ++ tail) with (first :: more ++ tail).
  rewrite (skipLogs_past_logs logs first (more ++ tail) Hlogs Hfirst 0).
  cbn [Nat.add]. rewrite skipn_past.
  rewrite scan_without_markers; [|reflexivity|exact Hmark].
  cbn [foundResponseMarker initialState negb andb].
  assert (L : (List.length logs <? List.length (logs ++ first :: more ++ tail)) = true)
    by (apply Nat.ltb_lt; rewrite length_app; cbn; lia).
  rewrite L.
  change (first :: more ++ tail) with ((first :: more) ++ tail).
  rewrite (collectUntilEnd_body (first :: more) tail Hend Htail).
  rewrite cleanup_without_labels.
  - assert (T : truthy (trim (join nl (filter nonBlank (first :: more)))) = true).
    { rewrite trim_truthy, allWhite_join by reflexivity.
      cbn [filter]. rewrite Hnb. cbn [forallb].
      rewrite nonBlank_allWhite in Hnb. now destruct (allWhite first). }
    now rewrite T.
  - apply join_without_labels. intros l Hl.
    apply filter_In in Hl as [Hl _]. split; [|now apply Hend].
    apply (split_no_sep LF output). rewrite Hsplit.
    apply in_or_app. right. apply in_or_app. now left.
Qed.

(** X3: when no line from the first body line on holds a response marker,
    the log lines above the body are skipped and the answer is the
    non-blank body lines up to the first line with an end marker (or to
    the end of the output), joined with line feeds and trimmed. *)
Theorem parse_unmarked_output :
  forall (output : string) (logs : list string) (first : string)
         (more tail : list string),
    split LF output = logs ++ (first :: more) ++ tail ->
    (forall l, In l logs -> startsOutput l = false) ->
    startsOutput first = true ->
    (forall l, In l (first :: more) -> hitsEndMarker l = false) ->
    (forall l, In l ((first :: more) ++ tail) -> mentionsMarker l = false) ->
    closesBody tail = true ->
    parseLiteRTOutput output = trim (join nl (filter nonBlank (first :: more))).
Proof. exact parse_without_markers. Qed.

Lemma parse_unmarked_output_witness :
  parseLiteRTOutput plainOutput =
  trim (join nl (filter nonBlank
                   ["The capital is Paris."; EmptyString; "  It lies on the Seine."])).
Proof.
  apply (parse_unmarked_output plainOutput
           ["I0001 00:00:00 init"; "INFO: model loaded"]
           "The capital is Paris." [EmptyString; "  It lies on the Seine."]
           ["---"; "bye"]).
  - reflexivity.
  - intros l [<-|[<-|[]]]; reflexivity.
  - reflexivity.
  - intros l [<-|[<-|[<-|[]]]]; reflexivity.
  - intros l [<-|[<-|[<-|[<-|[<-|[]]]]]]; reflexivity.
  - reflexivity.
Defined.

(** *** Parsing an answer again *)

(** X4: an answer whose lines hold neither a response marker nor an end
    marker, and whose first line does not look like a log line, is left
    unchanged when it is parsed again. *)
Theorem parse_idempotent_on_plain_answers :
  forall output : string,
    (forall l, In l (split LF (parseLiteRTOutput output)) ->
       mentionsMarker l = false /\ hitsEndMarker l = false) ->
    startsOutput (firstLine (parseLiteRTOutput output)) = true ->
    parseLiteRTOutput (parseLiteRTOutput output) = parseLiteRTOutput output.
Proof.
  intros output. set (r := parseLiteRTOutput output). intros Hlines Hfirst.
  unfold firstLine in Hfirst.
  destruct (split LF r) as [|first more] eqn:S; [now apply split_nonempty in S|].
  cbn [hd] in Hfirst.
  rewrite (parse_without_markers r [] first more []).
  - assert (F : filter nonBlank (first :: more) = first :: more).
    { apply forallb_filter_id, forallb_forall. intros l Hl.
      apply (parse_lines_nonBlank output). fold r. now rewrite S. }
    rewrite F, <- S. unfold nl. rewrite join_split. apply parse_trimmed.
  - now rewrite S, app_nil_r.
  - intros l [].
  - exact Hfirst.
  - intros l Hl. now apply Hlines.
  - intros l Hl. rewrite app_nil_r in Hl. now apply Hlines.
  - reflexivity.
Qed.

Lemma parse_idempotent_on_plain_answers_witness :
  parseLiteRTOutput (parseLiteRTOutput plainOutput) = parseLiteRTOutput plainOutput.
Proof.
  apply (parse_idempotent_on_plain_answers plainOutput).
  - intros l Hl. vm_compute in Hl.
    destruct Hl as [<-|[<-|[]]]; split; reflexivity.
  - reflexivity.
Defined.

End ParserMore.

(* ------------------------------------------------------------------ *)
(** ** Properties of the rest of server.js *)

Module ApiFacts.
Import JsString Parser Server Api StringFacts RegexFacts ParserFacts ServerFacts.

(** *** Authentication *)

Lemma auth_passes_iff (config : Config) (authorization : option string) :
  truthy (api_key config) = true ->
  authenticateAPIKey config authorization = Next
  <-> authorization = Some ("Bearer " ++ api_key config)%string.
Proof.
  intros Hkey. unfold authenticateAPIKey. rewrite Hkey. split.
  - destruct authorization as [h|]; [|discriminate].
    destruct (truthy h); [|discriminate]. cbn [negb orb].
    destruct (prefix "Bearer " h) eqn:P; [|discriminate]. cbn [negb].
    cbv zeta. destruct (substring 7 h =? api_key config)%string eqn:E;
      [|discriminate].
    intros _. apply String.eqb_eq in E. f_equal.
    rewrite (prefix_split _ _ P). now rewrite <- E.
  - intros ->.
    assert (P : prefix "Bearer " ("Bearer " ++ api_key config) = true)
      by (apply (prefix_append "Bearer " "Bearer "), prefix_refl).
    assert (T : truthy ("Bearer " ++ api_key config) = true) by reflexivity.
    assert (K : substring 7 ("Bearer " ++ api_key config) = api_key config)
      by reflexivity.
    cbv zeta. now rewrite T, P, K, String.eqb_refl.
Qed.

(** X5: when an API key is configured, the middleware lets a request
    through exactly when its authorization header is [Bearer ] followed by
    the key; a missing header, another scheme or another key is answered
    with 401. *)
Theorem authenticateAPIKey_passes_exactly_the_key :
  forall (config : Config) (authorization : option string),
    api_key config <> EmptyString ->
    (authenticateAPIKey config authorization = Next
     <-> authorization = Some ("Bearer " ++ api_key config)%string)
    /\ (authenticateAPIKey config authorization = Next
        \/ authenticateAPIKey config authorization
           = Unauthorized "Missing or invalid API key"
        \/ authenticateAPIKey config authorization
           = Unauthorized "Invalid API key").
Proof.
  intros config authorization Hkey. split.
  - now apply auth_passes_iff, truthy_true.
  - unfold authenticateAPIKey. destruct (truthy (api_key config)); [|now left].
    destruct authorization as [h|]; [|right; now left].
    destruct (negb (truthy h) || negb (prefix "Bearer " h)); [right; now left|].
    cbv zeta. destruct (negb _); [right; now right | now left].
Qed.

Lemma authenticateAPIKey_passes_exactly_the_key_witness :
  (authenticateAPIKey demoConfig (Some "Bearer sk-litert-demo-key") = Next
   <-> Some "Bearer sk-litert-demo-key"
       = Some ("Bearer " ++ api_key demoConfig)%string)
  /\ (authenticateAPIKey demoConfig (Some "Bearer sk-litert-demo-key") = Next
      \/ authenticateAPIKey demoConfig (Some "Bearer sk-litert-demo-key")
         = Unauthorized "Missing or invalid API key"
      \/ authenticateAPIKey demoConfig (Some "Bearer sk-litert-demo-key")
         = Unauthorized "Invalid API key").
Proof.
  apply (authenticateAPIKey_passes_exactly_the_key demoConfig
           (Some "Bearer sk-litert-demo-key")).
  discriminate.
Defined.

Lemma orDefault_truthy (value : option string) (fallback : string) :
  truthy fallback = true -> truthy (orDefault value fallback) = true.
Proof.
  intros H. unfold orDefault. destruct value as [v|]; [|exact H].
  destruct (truthy v) eqn:E; [exact E | exact H].
Qed.

(** X6: whatever the environment, the configuration holds a non-empty API
    key (the variable, or the demo key when it is unset or empty), so the
    check cannot be switched off: a request passes exactly when it carries
    that key, and a request without authorization header never does. *)
Theorem CONFIG_always_authenticates :
  forall (env : Env) (authorization : option string),
    api_key (CONFIG env) <> EmptyString
    /\ (authenticateAPIKey (CONFIG env) authorization = Next
        <-> authorization
            = Some ("Bearer " ++ orDefault (env "API_KEY") "sk-litert-demo-key")%string)
    /\ authenticateAPIKey (CONFIG env) None
       = Unauthorized "Missing or invalid API key".
Proof.
  intros env authorization.
  assert (K : truthy (api_key (CONFIG env)) = true)
    by (apply orDefault_truthy; reflexivity).
  repeat split.
  - now apply truthy_true.
  - now apply (auth_passes_iff (CONFIG env) authorization K).
  - now apply (auth_passes_iff (CONFIG env) authorization K).
  - unfold authenticateAPIKey. now rewrite K.
Qed.

(** *** The prompt *)

Lemma renderFrom_append (messages : list Message) :
  forall prompt,
    renderFrom prompt messages
    = (prompt ++ renderFrom EmptyString messages)%string.
Proof.
  unfold renderFrom. induction messages as [|m messages IH]; intros prompt.
  - cbn. now rewrite append_nil_r.
  - cbn [fold_left]. rewrite IH, (IH (EmptyString ++ renderMessage m)%string).
    cbn [append]. apply append_assoc.
Qed.

Lemma renderFrom_app (prompt : string) (xs ys : list Message) :
  renderFrom prompt (xs ++ ys) = renderFrom (renderFrom prompt xs) ys.
Proof. unfold renderFrom. apply fold_left_app. Qed.

Lemma nth_error_last {A : Type} (l : list A) (x : A) :
  nth_error (l ++ [x]) (List.length (l ++ [x]) - 1) = Some x.
Proof.
  rewrite length_app. cbn [List.length].
  replace (List.length l + 1 - 1) with (List.length l) by lia.
  rewrite nth_error_app2 by lia. now rewrite Nat.sub_diag.
Qed.

(** A rendered message is empty or starts with a letter. *)
Lemma renderMessage_head (m : Message) :
  trimStart (renderMessage m) = renderMessage m.
Proof.
  unfold renderMessage.
  destruct (role m =? "system")%string; [reflexivity|].
  destruct (role m =? "user")%string; [reflexivity|].
  destruct (role m =? "assistant")%string; reflexivity.
Qed.

Lemma trimStart_fixed_append (a b : string) :
  trimStart a = a -> trimStart b = b -> trimStart (a ++ b) = (a ++ b)%string.
Proof.
  intros Ha Hb. destruct a as [|c a]; [exact Hb|].
  cbn in Ha |- *. destruct (isWhiteSpace c) eqn:W; [|reflexivity].
  exfalso. destruct (trimStart_suffix a) as [p Hp].
  assert (L : String.length a = String.length p + String.length (trimStart a))
    by (rewrite Hp at 1; apply length_append).
  rewrite Ha in L. cbn in L. lia.
Qed.

Lemma renderFrom_head (messages : list Message) :
  trimStart (renderFrom EmptyString messages) = renderFrom EmptyString messages.
Proof.
  induction messages as [|m messages IH]; [reflexivity|].
  unfold renderFrom in *. cbn [fold_left append].
  fold (renderFrom (renderMessage m) messages).
  rewrite renderFrom_append.
  apply trimStart_fixed_append; [apply renderMessage_head | exact IH].
Qed.

Lemma renderElements_objects (messages : list Message) :
  forall prompt,
    renderElements prompt (map Some messages) = Returns (renderFrom prompt messages).
Proof.
  induction messages as [|m messages IH]; intros prompt; [reflexivity|].
  cbn [map renderElements]. rewrite IH. reflexivity.
Qed.

Lemma renderElements_app (xs ys : list (option Message)) :
  forall prompt,
    renderElements prompt (xs ++ ys)
    = match renderElements prompt xs with
      | Returns built => renderElements built ys
      | ThrowsTypeError message => ThrowsTypeError message
      end.
Proof.
  induction xs as [|x xs IH]; intros prompt; [reflexivity|].
  destruct x as [m|]; [apply IH | reflexivity].
Qed.



(** X7: when the last message is not the assistant's, the prompt is the
    rendering of the messages followed by the cue [Assistant:], character
    for character: the final [trim] removes nothing, so white space inside
    and at the end of the contents is kept. *)
Theorem messagesToPrompt_ends_with_cue :
  forall (earlier : list Message) (lastMessage : Message),
    role lastMessage <> "assistant" ->
    messagesToPrompt (map Some (earlier ++ [lastMessage]))
    = Returns (renderFrom EmptyString (earlier ++ [lastMessage]) ++ "Assistant:")%string.
Proof.
  intros earlier lastMessage Hrole. unfold messagesToPrompt.
  rewrite renderElements_objects, map_app. cbn [map].
  rewrite nth_error_last. cbv zeta.
  apply String.eqb_neq in Hrole. rewrite Hrole.
  cbn [negb]. f_equal. unfold trim.
  rewrite trimStart_fixed_append; [|apply renderFrom_head|reflexivity].
  now rewrite trimEnd_append by reflexivity.
Qed.

Lemma messagesToPrompt_ends_with_cue_witness :
  messagesToPrompt (map Some demoMessages)
  = Returns (renderFrom EmptyString demoMessages ++ "Assistant:")%string.
Proof.
  apply (messagesToPrompt_ends_with_cue
           [ {| role := "system"; content := "Be brief. " |};
             {| role := "tool"; content := "ignored" |} ]
           {| role := "user"; content := "Capital of France?" |}).
  discriminate.
Defined.

Lemma renderMessage_unknown (m : Message) :
  knownRole (role m) = false -> renderMessage m = EmptyString.
Proof.
  unfold knownRole, renderMessage. intros H.
  apply orb_false_iff in H as [H H3]. apply orb_false_iff in H as [H1 H2].
  now rewrite H1, H2, H3.
Qed.

(** X8: a message whose role is none of [system], [user] and [assistant]
    leaves no trace in the prompt, unless it is the last one: removing it
    from the conversation gives the same prompt. *)
Theorem messagesToPrompt_ignores_unknown_roles :
  forall (before : list (option Message)) (m : Message)
         (after : list (option Message)),
    knownRole (role m) = false ->
    after <> [] ->
    messagesToPrompt (before ++ Some m :: after) = messagesToPrompt (before ++ after).
Proof.
  intros before m after Hrole Hafter.
  destruct (exists_last Hafter) as (mid & z & ->).
  assert (R : renderElements EmptyString (before ++ Some m :: mid ++ [z])
              = renderElements EmptyString (before ++ mid ++ [z])).
  { rewrite !renderElements_app.
    destruct (renderElements EmptyString before) as [built|e]; [|reflexivity].
    cbn [renderElements].
    now rewrite (renderMessage_unknown m Hrole), append_nil_r. }
  unfold messagesToPrompt. rewrite R.
  change (before ++ Some m :: mid ++ [z]) with (before ++ (Some m :: mid) ++ [z]).
  rewrite !app_assoc, !nth_error_last. reflexivity.
Qed.

Lemma messagesToPrompt_ignores_unknown_roles_witness :
  messagesToPrompt (map Some demoMessages)
  = messagesToPrompt
      ([ Some {| role := "system"; content := "Be brief. " |} ]
       ++ [ Some {| role := "user"; content := "Capital of France?" |} ]).
Proof.
  apply (messagesToPrompt_ignores_unknown_roles
           [ Some {| role := "system"; content := "Be brief. " |} ]
           {| role := "tool"; content := "ignored" |}
           [ Some {| role := "user"; content := "Capital of France?" |} ]).
  - reflexivity.
  - discriminate.
Defined.



(** *** What a run resolves with *)

Lemma runLiteRT_resolved_facts (run : ProcessRun) (v : string) :
  runLiteRT run = Resolved v ->
  truthy v = true /\ v <> noResponse /\ trim v = v.
Proof.
  assert (U : forall r, negb (truthy r) || (r =? noResponse)%string = false ->
                        truthy r = true /\ r <> noResponse).
  { intros r H. apply orb_false_iff in H as [H1 H2].
    apply negb_false_iff in H1. now apply String.eqb_neq in H2. }
  destruct run as [message|code output error]; [discriminate|].
  unfold runLiteRT. destruct (negb (code =? 0)%Z).
  - destruct (_ || _); discriminate.
  - cbv zeta.
    destruct (negb (truthy (parseLiteRTOutput output))
              || (parseLiteRTOutput output =? noResponse)%string) eqn:E1.
    + destruct (truthy (parseLiteRTOutput error)
                && negb (parseLiteRTOutput error =? noResponse)%string) eqn:E2.
      * intros [= <-]. apply andb_true_iff in E2 as [T N].
        apply negb_true_iff, String.eqb_neq in N.
        repeat split; [exact T | exact N | apply ParserMore.parse_trimmed].
      * intros [= <-]. repeat split. discriminate.
    + intros [= <-]. destruct (U _ E1) as [T N].
      repeat split; [exact T | exact N | apply ParserMore.parse_trimmed].
Qed.

(** X10: whatever a run resolves with is a non-empty, trimmed text other
    than the parser's sentinel [No response generated]: the sentinel never
    reaches a client. *)
Theorem runLiteRT_resolves_with_an_answer :
  forall (run : ProcessRun) (v : string),
    runLiteRT run = Resolved v ->
    v <> EmptyString /\ v <> noResponse /\ trim v = v.
Proof.
  intros run v H. destruct (runLiteRT_resolved_facts run v H) as (T & N & R).
  repeat split; [now apply truthy_true | exact N | exact R].
Qed.

Lemma runLiteRT_resolves_with_an_answer_witness :
  Scenarios.parisAnswer <> EmptyString
  /\ Scenarios.parisAnswer <> noResponse
  /\ trim Scenarios.parisAnswer = Scenarios.parisAnswer.
Proof.
  apply (runLiteRT_resolves_with_an_answer
           (Closed 0 ("Response: " ++ Scenarios.parisAnswer) EmptyString)).
  reflexivity.
Defined.

(** *** No empty chunk *)

Lemma trimEnd_append_white (a b : string) :
  allWhite b = true -> trimEnd (a ++ b) = trimEnd a.
Proof.
  intros H. induction a as [|c a IH].
  - cbn [append]. pose proof (trimEnd_truthy b) as T. rewrite H in T.
    now apply truthy_false in T.
  - cbn [append trimEnd]. now rewrite IH.
Qed.

(** A text that [trimEnd] leaves alone does not end with white space. *)
Lemma trimEnd_fixed_last (a : string) (c : ascii) :
  trimEnd (a ++ String c EmptyString) = (a ++ String c EmptyString)%string ->
  isWhiteSpace c = false.
Proof.
  intros H. destruct (isWhiteSpace c) eqn:W; [|reflexivity]. exfalso.
  rewrite trimEnd_append_white in H by (cbn; now rewrite W).
  destruct (trimEnd_prefix a) as [b Hb].
  assert (L : String.length a = String.length (trimEnd a) + String.length b)
    by (rewrite Hb at 1; apply length_append).
  rewrite H, length_append in L. cbn in L. lia.
Qed.

Lemma last_cons_nonempty {A : Type} (x : A) (l : list A) (d : A) :
  l <> [] -> last (x :: l) d = last l d.
Proof. destruct l; [contradiction | reflexivity]. Qed.

(** The last word is empty only for the empty text and for a text that
    ends with the separator. *)
Lemma last_split_empty (c : ascii) (s : string) :
  last (split c s) EmptyString = EmptyString ->
  s = EmptyString \/ exists a, s = (a ++ String c EmptyString)%string.
Proof.
  induction s as [|d s IH]; intros H; [now left|]. right.
  cbn [split] in H. destruct (Ascii.eqb d c) eqn:E.
  - apply Ascii.eqb_eq in E. subst d.
    rewrite last_cons_nonempty in H by apply split_nonempty.
    destruct (IH H) as [->|[a ->]]; [now exists EmptyString | now exists (String c a)].
  - destruct (split c s) as [|w ws] eqn:S; [now apply split_nonempty in S|].
    destruct ws as [|w2 ws]; [discriminate|].
    rewrite last_cons_nonempty in H by discriminate.
    rewrite <- (last_cons_nonempty w (w2 :: ws)) in H by discriminate.
    destruct (IH H) as [->|[a ->]]; [discriminate | now exists (String d a)].
Qed.

Lemma last_word_truthy (v : string) :
  truthy v = true -> trim v = v ->
  truthy (last (split " "%char v) EmptyString) = true.
Proof.
  intros T R.
  assert (E : trimEnd v = v).
  { rewrite <- R at 1. unfold trim. rewrite trimEnd_idempotent. exact R. }
  destruct (last (split " "%char v) EmptyString) eqn:L; [|reflexivity].
  exfalso. destruct (last_split_empty " "%char v L) as [->|[a ->]]; [discriminate|].
  now apply trimEnd_fixed_last in E.
Qed.

Lemma join_truthy_last (sep : string) (l : list string) :
  l <> [] -> truthy (last l EmptyString) = true -> truthy (join sep l) = true.
Proof.
  induction l as [|x l IH]; intros Hne H; [contradiction|].
  destruct l as [|y l]; [exact H|].
  rewrite join_cons. apply truthy_append_r, truthy_append_r.
  apply IH; [discriminate|]. now rewrite last_cons_nonempty in H by discriminate.
Qed.

Lemma last_skipn {A : Type} (l : list A) (d : A) :
  forall j, j < List.length l -> last (skipn j l) d = last l d.
Proof.
  induction l as [|x l IH]; intros j Hj; [cbn in Hj; lia|].
  destruct j as [|j]; [reflexivity|].
  cbn [skipn]. cbn in Hj. rewrite IH by lia.
  symmetry. apply last_cons_nonempty. intros ->. cbn in Hj. lia.
Qed.

Lemma chunkAt_truthy (words : list string) (k : nat) :
  5 * k < List.length words ->
  truthy (last words EmptyString) = true ->
  truthy (chunkAt words k) = true.
Proof.
  intros Hk Hlast. unfold chunkAt. cbv zeta.
  destruct (5 * k + 5 <? List.length words) eqn:E;
    [now apply truthy_append_r|].
  apply Nat.ltb_ge in E. rewrite append_nil_r. unfold window.
  rewrite firstn_all2 by (rewrite length_skipn; lia).
  apply join_truthy_last.
  - intros H. apply (f_equal (@List.length string)) in H.
    rewrite length_skipn in H. cbn in H. lia.
  - now rewrite last_skipn.
Qed.

Lemma streamResponse_chunks_truthy (v : string) :
  truthy v = true -> trim v = v ->
  Forall (fun chunk => chunk <> EmptyString) (streamResponse v).
Proof.
  intros T R. unfold streamResponse. cbv zeta.
  rewrite streamLoop_from_start by apply le_n.
  apply Forall_forall. intros chunk Hin.
  apply in_map_iff in Hin as (k & <- & Hk). apply in_seq in Hk.
  apply truthy_true, chunkAt_truthy; [|now apply last_word_truthy].
  pose proof (Nat.div_mod_eq (List.length (split " "%char v) + 4) 5).
  pose proof (Nat.mod_upper_bound (List.length (split " "%char v) + 4) 5).
  lia.
Qed.

(** X11: no chunk yielded for an answer of [runLiteRT] is empty: every
    event of the stream carries some text. *)
Theorem streamResponse_yields_no_empty_chunk :
  forall (run : ProcessRun) (v : string),
    runLiteRT run = Resolved v ->
    Forall (fun chunk => chunk <> EmptyString) (streamResponse v).
Proof.
  intros run v H. destruct (runLiteRT_resolved_facts run v H) as (T & _ & R).
  now apply streamResponse_chunks_truthy.
Qed.

Lemma streamResponse_yields_no_empty_chunk_witness :
  Forall (fun chunk => chunk <> EmptyString) (streamResponse Scenarios.parisAnswer).
Proof.
  apply (streamResponse_yields_no_empty_chunk
           (Closed 0 ("Response: " ++ Scenarios.parisAnswer) EmptyString)).
  reflexivity.
Defined.

(** *** The usage estimate *)

(** X12: in the usage estimate the total is computed from the summed
    lengths, not from the two counts: it is at most their sum and at most
    one below it. *)
Theorem usage_total_within_one_of_sum :
  forall (prompt response : string),
    total_tokens (usage prompt response)
    <= prompt_tokens (usage prompt response) + completion_tokens (usage prompt response)
    /\ prompt_tokens (usage prompt response) + completion_tokens (usage prompt response)
       <= total_tokens (usage prompt response) + 1.
Proof.
  intros prompt response. unfold usage, ceilQuarter. cbn [total_tokens prompt_tokens completion_tokens].
  generalize (String.length prompt) as a, (String.length response) as b.
  intros a b.
  pose proof (Nat.div_mod_eq (a + 3) 4). pose proof (Nat.mod_upper_bound (a + 3) 4).
  pose proof (Nat.div_mod_eq (b + 3) 4). pose proof (Nat.mod_upper_bound (b + 3) 4).
  pose proof (Nat.div_mod_eq (a + b + 3) 4).
  pose proof (Nat.mod_upper_bound (a + b + 3) 4).
  lia.
Qed.

(** *** Streaming and not streaming *)

Lemma streamedText_writes (id : string) (clock : nat -> nat) (modelName : string)
      (tail : list ResCall) (chunks : list string) :
  forall k,
    streamedText
      (map (fun kc => Write (ChunkData id (clock (fst kc)) modelName (snd kc)))
           (combine (seq k (List.length chunks)) chunks) ++ tail)
    = (fold_right append EmptyString chunks ++ streamedText tail)%string.
Proof.
  induction chunks as [|c chunks IH]; intros k; [reflexivity|].
  cbn [List.length seq combine map app streamedText fst snd fold_right].
  now rewrite IH, append_assoc.
Qed.

Lemma streamResponse_chunks_concat (answer : string) :
  fold_right append EmptyString (streamResponse answer) = answer.
Proof.
  unfold streamResponse. cbv zeta. rewrite concat_streamLoop by lia.
  cbn [skipn]. apply (join_split " "%char).
Qed.

(** X13: a request answered without streaming by a completion with some
    content is answered with streaming by the event-stream head, one write
    per chunk, the final chunk, the end marker and [end]; the contents of
    the chunks, put together, are that same content, under the same id and
    model name. *)
Theorem streaming_delivers_the_same_text :
  forall (config : Config) (spawn : Spawn) (randomHex : string)
         (clock : nat -> nat) (msgs : option (list (option Message)))
         (modelName : option string)
         (id : string) (created : nat) (name content : string) (u : Usage),
    chatCompletions config spawn randomHex clock
      {| messages := msgs; model := modelName; stream := false |}
    = [ Json (ChatCompletion id created name content u) ] ->
    chatCompletions config spawn randomHex clock
      {| messages := msgs; model := modelName; stream := true |}
    = WriteHead 200 eventStreamHeaders
      :: streamCalls id clock name (streamResponse content)
    /\ streamedText
         (chatCompletions config spawn randomHex clock
            {| messages := msgs; model := modelName; stream := true |})
       = content.
Proof.
  intros config spawn randomHex clock msgs modelName id created name content u.
  unfold chatCompletions. cbn [messages model stream]. cbv zeta.
  destruct msgs as [[|m msgs]|]; try discriminate.
  destruct (messagesToPrompt (m :: msgs)) as [prompt|e]; [|discriminate].
  destruct (runLiteRTFor config spawn prompt) as [response|message];
    [|discriminate].
  intros [= <- _ <- <- _]. split; [reflexivity|].
  cbn [streamedText]. unfold streamCalls.
  rewrite streamedText_writes. cbn [streamedText].
  rewrite append_nil_r. apply streamResponse_chunks_concat.
Qed.

Lemma streaming_delivers_the_same_text_witness :
  streamedText
    (chatCompletions demoConfig demoSpawn "00ff" (fun k => 1700 + k)
       {| messages := Some (map Some demoMessages); model := None; stream := true |})
  = "Paris is the capital of France, a city on the Seine.".
Proof.
  apply (streaming_delivers_the_same_text demoConfig demoSpawn "00ff"
           (fun k => 1700 + k) (Some (map Some demoMessages)) None
           "chatcmpl-00ff" 1700 "litert-lm"
           "Paris is the capital of France, a city on the Seine."
           (usage ("System: Be brief. " ++ nl ++ nl ++ "User: Capital of France?"
                   ++ nl ++ nl ++ "Assistant:")
                  "Paris is the capital of France, a city on the Seine.")).
  vm_compute. reflexivity.
Defined.

(** *** A run that exits with code 0 *)

Lemma runLiteRT_exit_zero_resolves (output error : string) :
  exists v, runLiteRT (Closed 0 output error) = Resolved v.
Proof.
  unfold runLiteRT. cbn [Z.eqb negb]. cbv zeta.
  destruct (_ || _); [destruct (_ && _)|]; eexists; reflexivity.
Qed.

(** X16: when the process started for a conversation exits with code 0,
    the request without streaming is answered by one completion, never by
    an error; the completion has a non-empty content and counts at least
    one completion token. *)
Theorem chatCompletions_completes_after_exit_zero :
  forall (config : Config) (spawn : Spawn) (randomHex : string)
         (clock : nat -> nat) (m : option Message) (msgs : list (option Message))
         (modelName : option string) (prompt output error : string),
    messagesToPrompt (m :: msgs) = Returns prompt ->
    spawn (litert_binary config) (spawnArgs config prompt) = Closed 0 output error ->
    exists content,
      content <> EmptyString
      /\ chatCompletions config spawn randomHex clock
           {| messages := Some (m :: msgs); model := modelName; stream := false |}
         = [ Json (ChatCompletion ("chatcmpl-" ++ randomHex) (clock 0)
                     (match modelName with Some n => n | None => "litert-lm" end)
                     content (usage prompt content)) ]
      /\ 1 <= completion_tokens (usage prompt content).
Proof.
  intros config spawn randomHex clock m msgs modelName prompt output error Hp Hs.
  destruct (runLiteRT_exit_zero_resolves output error) as [v Hv].
  destruct (runLiteRT_resolved_facts _ _ Hv) as (T & _ & _).
  exists v. repeat split.
  - now apply truthy_true.
  - unfold chatCompletions. cbn [messages model stream]. cbv zeta.
    rewrite Hp. unfold runLiteRTFor. now rewrite Hs, Hv.
  - cbn [usage completion_tokens]. unfold ceilQuarter.
    destruct v as [|c v]; [discriminate|]. cbn [String.length].
    pose proof (Nat.div_mod_eq (S (String.length v) + 3) 4).
    pose proof (Nat.mod_upper_bound (S (String.length v) + 3) 4). lia.
Qed.

Lemma chatCompletions_completes_after_exit_zero_witness :
  exists content,
    content <> EmptyString
    /\ chatCompletions demoConfig demoSpawn "00ff" (fun k => 1700 + k)
         {| messages := Some (map Some demoMessages); model := None; stream := false |}
       = [ Json (ChatCompletion ("chatcmpl-" ++ "00ff") 1700 "litert-lm" content
                   (usage ("System: Be brief. " ++ nl ++ nl
                           ++ "User: Capital of France?" ++ nl ++ nl ++ "Assistant:")
                          content)) ]
    /\ 1 <= completion_tokens
              (usage ("System: Be brief. " ++ nl ++ nl
                      ++ "User: Capital of France?" ++ nl ++ nl ++ "Assistant:")
                     content).
Proof.
  apply (chatCompletions_completes_after_exit_zero demoConfig demoSpawn "00ff"
           (fun k => 1700 + k)
           (Some {| role := "system"; content := "Be brief. " |})
           [ Some {| role := "tool"; content := "ignored" |};
             Some {| role := "user"; content := "Capital of France?" |} ]
           None
           ("System: Be brief. " ++ nl ++ nl
            ++ "User: Capital of France?" ++ nl ++ nl ++ "Assistant:")
           "Paris is the capital of France, a city on the Seine." EmptyString).
  - reflexivity.
  - reflexivity.
Defined.

End ApiFacts.

(* ------------------------------------------------------------------ *)
(** ** The matcher only finds matches of the pattern *)

Module MatcherFacts.
Import JsString Regex RegexSemantics StringFacts RegexFacts.

Lemma starLoop_sound {R : Type} (f : flags) (g : bool) (r : regex)
      (k : cont R) :
  (forall pos s caps (k' : cont R) v,
     run f r pos s caps k' = Some v ->
     exists w rest caps',
       s = (w ++ rest)%string
       /\ Matches f r pos w rest caps caps'
       /\ k' (pos + String.length w) rest caps' = Some v) ->
  forall n pos s caps v,
    starLoop g (run f r) k n pos s caps = Some v ->
    exists w rest caps',
      s = (w ++ rest)%string
      /\ Matches f (Star g r) pos w rest caps caps'
      /\ k (pos + String.length w) rest caps' = Some v.
Proof.
  intros Hbody.
  assert (Stop : forall pos s caps v,
             k pos s caps = Some v ->
             exists w rest caps',
               s = (w ++ rest)%string
               /\ Matches f (Star g r) pos w rest caps caps'
               /\ k (pos + String.length w) rest caps' = Some v).
  { intros pos s caps v H. exists EmptyString, s, caps.
    cbn [append String.length]. rewrite Nat.add_0_r.
    repeat split; [constructor | exact H]. }
  induction n as [|n IH]; intros pos s caps v H.
  - cbn [starLoop] in H. destruct g.
    + now apply Stop.
    + destruct (k pos s caps) eqn:K; [|discriminate].
      injection H as <-. now apply Stop.
  - assert (Again : forall v0,
               run f r pos s caps
                 (fun pos' s' caps' =>
                    if String.length s' <? String.length s
                    then starLoop g (run f r) k n pos' s' caps'
                    else None) = Some v0 ->
               exists w rest caps',
                 s = (w ++ rest)%string
                 /\ Matches f (Star g r) pos w rest caps caps'
                 /\ k (pos + String.length w) rest caps' = Some v0).
    { intros v0 H0. apply Hbody in H0 as (w1 & rest1 & c1 & -> & M1 & H1).
      destruct (String.length rest1 <? String.length (w1 ++ rest1)) eqn:L;
        [|discriminate].
      apply Nat.ltb_lt in L. rewrite length_append in L.
      apply IH in H1 as (w2 & rest & c2 & -> & M2 & H2).
      exists (w1 ++ w2)%string, rest, c2. repeat split.
      - now rewrite append_assoc.
      - apply MStarMore with (c1 := c1); [|exact M1|exact M2].
        intros ->. cbn in L. lia.
      - now rewrite length_append, Nat.add_assoc. }
    cbn [starLoop] in H. destruct g.
    + match type of H with
      | match ?x with _ => _ end = _ => destruct x as [v0|] eqn:E
      end.
      * injection H as <-. now apply Again.
      * now apply Stop.
    + destruct (k pos s caps) as [v0|] eqn:K.
      * injection H as <-. now apply Stop.
      * now apply Again.
Qed.

(** What the matcher finds is a match of the pattern. *)
Lemma run_sound {R : Type} (f : flags) (r : regex) :
  forall pos s caps (k : cont R) v,
    run f r pos s caps k = Some v ->
    exists w rest caps',
      s = (w ++ rest)%string
      /\ Matches f r pos w rest caps caps'
      /\ k (pos + String.length w) rest caps' = Some v.
Proof.
  induction r as [ |c|p| | | |r1 IH1 r2 IH2|g r1 IH1|r1 IH1|r1 IH1];
    intros pos s caps k v H; cbn [run] in H.
  - exists EmptyString, s, caps. cbn. rewrite Nat.add_0_r.
    repeat split; [constructor | exact H].
  - destruct s as [|d s]; [discriminate|].
    destruct (sameChar f c d) eqn:E; [|discriminate].
    exists (String d EmptyString), s, caps. cbn. rewrite Nat.add_1_r.
    repeat split; [now constructor | exact H].
  - destruct s as [|d s]; [discriminate|].
    destruct (p d) eqn:E; [|discriminate].
    exists (String d EmptyString), s, caps. cbn. rewrite Nat.add_1_r.
    repeat split; [now constructor | exact H].
  - destruct s as [|d s]; [discriminate|].
    destruct (dotMatches f d) eqn:E; [|discriminate].
    exists (String d EmptyString), s, caps. cbn. rewrite Nat.add_1_r.
    repeat split; [now constructor | exact H].
  - destruct (pos =? 0) eqn:E; [|discriminate].
    apply Nat.eqb_eq in E. subst pos.
    exists EmptyString, s, caps. cbn. repeat split; [constructor | exact H].
  - destruct s as [|d s]; [|discriminate].
    exists EmptyString, EmptyString, caps. cbn. rewrite Nat.add_0_r.
    repeat split; [constructor | exact H].
  - apply IH1 in H as (w1 & rest1 & c1 & -> & M1 & H).
    apply IH2 in H as (w2 & rest & c2 & -> & M2 & H).
    exists (w1 ++ w2)%string, rest, c2. repeat split.
    + now rewrite append_assoc.
    + now apply MSeq with (c1 := c1).
    + now rewrite length_append, Nat.add_assoc.
  - now apply (starLoop_sound f g r1 k IH1) in H.
  - destruct (run f r1 pos s caps k) as [v0|] eqn:E.
    + injection H as <-. apply IH1 in E as (w & rest & c1 & -> & M & H).
      exists w, rest, c1. repeat split; [now constructor | exact H].
    + exists EmptyString, s, caps. cbn. rewrite Nat.add_0_r.
      repeat split; [apply MOptNone | exact H].
  - apply IH1 in H as (w & rest & c1 & -> & M & H).
    exists w, rest, (c1 ++ [w]). repeat split; [now constructor|].
    replace (pos + String.length w - pos) with (String.length w) in H by lia.
    now rewrite substringTo_append in H.
Qed.

(** A successful search is a match of the pattern somewhere in the text,
    and its captures are those of the match. *)
Lemma searchFrom_sound (f : flags) (r : regex) :
  forall s pos m,
    searchFrom f r pos s = Some m ->
    exists pos' w rest,
      Matches f r pos' w rest [] (captures m).
Proof.
  induction s as [|c s IH]; intros pos m H; cbn [searchFrom] in H.
  - destruct (run f r pos EmptyString [] _) as [m0|] eqn:E; [|discriminate].
    injection H as <-. apply run_sound in E as (w & rest & c1 & _ & M & E).
    injection E as <-. now exists pos, w, rest.
  - destruct (run f r pos (String c s) [] _) as [m0|] eqn:E.
    + injection H as <-. apply run_sound in E as (w & rest & c1 & _ & M & E).
      injection E as <-. now exists pos, w, rest.
    + now apply IH in H.
Qed.

(** A pattern without group leaves the captures as they are. *)
Lemma Matches_groupFree (f : flags) r pos w rest c c' :
  Matches f r pos w rest c c' -> groupFree r = true -> c' = c.
Proof.
  induction 1 as [ | | | | | |r1 r2 pos w1 w2 rest c0 c1 c2 _ IH1 _ IH2
                  | |g r pos w1 w2 rest c0 c1 c2 _ _ IH1 _ IH2
                  |r pos w rest c0 c1 _ IH| |]; intros G; try reflexivity.
  - cbn in G. apply andb_true_iff in G as [G1 G2].
    rewrite (IH2 G2). now apply IH1.
  - cbn in G. rewrite (IH2 G). now apply IH1.
  - cbn in G. now apply IH.
  - discriminate.
Qed.

Lemma groupFree_Lit (x : string) : groupFree (Lit x) = true.
Proof. induction x as [|c x IH]; [reflexivity | exact IH]. Qed.

Lemma allChars_append (p : ascii -> bool) (a b : string) :
  allChars p (a ++ b) = allChars p a && allChars p b.
Proof.
  induction a as [|c a IH]; [reflexivity|].
  cbn. now rewrite IH, andb_assoc.
Qed.

(** A run of a character class is made of characters of the class. *)
Lemma Matches_star_class (f : flags) (g : bool) (p : ascii -> bool)
      pos w rest c c' :
  Matches f (Star g (Class p)) pos w rest c c' -> allChars p w = true.
Proof.
  remember (Star g (Class p)) as r eqn:Er. intros M.
  induction M as [ | | | | | | | |g' r' pos w1 w2 rest c0 c1 c2 Hne M1 _ M2 IH2| | |];
    try discriminate; [reflexivity|].
  injection Er as -> ->. rewrite allChars_append, (IH2 eq_refl), andb_true_r.
  inversion M1; subst. cbn. now rewrite H0.
Qed.

(** Under the [i] flag a literal point still matches the point only. *)
Lemma sameChar_point (f : flags) (d : ascii) :
  sameChar f "." d = true -> d = "."%char.
Proof.
  unfold sameChar. destruct (ignoreCase f).
  - destruct d as [[] [] [] [] [] [] [] []]; vm_compute; congruence.
  - intros H. apply Ascii.eqb_eq in H. now subst.
Qed.

(** What the capture group takes is a number text, and it is the only
    capture. *)
Lemma Matches_numberGroup (f : flags) pos w rest c c' :
  Matches f Parser.numberGroup pos w rest c c' ->
  c' = c ++ [w] /\ numberText w.
Proof.
  unfold Parser.numberGroup, Plus. intros M.
  inversion M as [ | | | | | | | | | | |r0 pos0 w0 rest0 c0 c1 M1]; subst.
  inversion M1 as [ | | | | | |r1 r2 pos1 wa wb rest1 ca cb cc Ma Mb| | | | |]; subst.
  inversion Ma as [ | | | | | |r1 r2 pos1 wd we rest1 cd ce cf Md Me| | | | |]; subst.
  inversion Mb as [ | | | | | |r1 r2 pos1 wp wf rest1 cp cq cr Mp Mf| | | | |]; subst.
  assert (C1 : ce = c) by (apply (Matches_groupFree _ _ _ _ _ _ _ Md); reflexivity).
  assert (C2 : cb = ce) by (apply (Matches_groupFree _ _ _ _ _ _ _ Me); reflexivity).
  assert (C3 : cq = cb) by (apply (Matches_groupFree _ _ _ _ _ _ _ Mp); reflexivity).
  assert (C4 : c1 = cq) by (apply (Matches_groupFree _ _ _ _ _ _ _ Mf); reflexivity).
  split; [congruence|].
  exists (wd ++ we)%string, wp, wf. repeat split.
  - inversion Md; subst. discriminate.
  - rewrite allChars_append, (Matches_star_class _ _ _ _ _ _ _ _ Me), andb_true_r.
    inversion Md; subst. cbn. now rewrite H0.
  - inversion Mp as [ | | | | | | | | |r3 pos3 w3 rest3 c3 c4 Mc|r3 pos3 rest3 c3|];
      subst; [right | now left].
    inversion Mc; subst. f_equal. now apply (sameChar_point f).
  - exact (Matches_star_class _ _ _ _ _ _ _ _ Mf).
Qed.

(** A match of a metric pattern (a label, a lazy run, the capture group,
    a tail without group) captures exactly one number text. *)
Lemma Matches_metric_pattern (f : flags) (a b t : regex) pos w rest c' :
  groupFree a = true -> groupFree b = true -> groupFree t = true ->
  Matches f (Seq a (Seq b (Seq Parser.numberGroup t))) pos w rest [] c' ->
  exists n, c' = [n] /\ numberText n.
Proof.
  intros Ga Gb Gt M.
  inversion M as [ | | | | | |r1 r2 pos1 wa w1 rest1 ca cb cc Ma M1| | | | |]; subst.
  inversion M1 as [ | | | | | |r1 r2 pos1 wb w2 rest1 cd ce cf Mb M2| | | | |]; subst.
  inversion M2 as [ | | | | | |r1 r2 pos1 wn wt rest1 cg ch ci Mn Mt| | | | |]; subst.
  apply Matches_groupFree in Ma; [|exact Ga]. subst cb.
  apply Matches_groupFree in Mb; [|exact Gb]. subst ce.
  apply Matches_groupFree in Mt; [|exact Gt]. subst c'.
  apply Matches_numberGroup in Mn as [-> N]. now exists wn.
Qed.

End MatcherFacts.

(* ------------------------------------------------------------------ *)
(** ** The reported metrics are numbers *)

Module MetricsFacts.
Import JsString Regex RegexSemantics Parser StringFacts RegexFacts
       ParserFacts MatcherFacts.

(** Reading digits stops at the end of the run. *)
Lemma readDigits_run (ds tail : string) :
  allChars isDigit ds = true ->
  match tail with
  | EmptyString => true
  | String c _ => negb (isDigit c)
  end = true ->
  forall acc n,
    exists acc', readDigits acc n (ds ++ tail) = (acc', n + String.length ds, tail).
Proof.
  intros Hds Htail. induction ds as [|d ds IH]; intros acc n.
  - exists acc. cbn [append String.length]. rewrite Nat.add_0_r.
    destruct tail as [|c tail]; [reflexivity|].
    cbn. apply negb_true_iff in Htail. now rewrite Htail.
  - cbn in Hds. apply andb_true_iff in Hds as [Hd Hds].
    cbn [append readDigits String.length]. rewrite Hd.
    destruct (IH Hds (10 * acc + N.of_nat (codeUnit d - 48))%N (S n)) as [acc' E].
    exists acc'. rewrite E. f_equal. f_equal. lia.
Qed.

(** [parseFloat] of a number text is a number, and not a negative one. *)
Lemma parseFloat_numberText (w : string) :
  numberText w -> exists q, parseFloat w = Num q /\ (0 <= q)%Q.
Proof.
  intros (whole & point & fraction & -> & Hne & Hw & Hp & Hf).
  assert (L : String.length whole <> 0) by (destruct whole; [contradiction | discriminate]).
  assert (Pos : forall (a : N) (d : positive), (0 <= Qmake (Z.of_N a) d)%Q).
  { intros a d. unfold Qle. cbn. lia. }
  unfold parseFloat. destruct Hp as [->| ->].
  - cbn [append].
    destruct (readDigits_run (whole ++ fraction) EmptyString) with (acc := 0%N) (n := 0)
      as [a E]; [now rewrite allChars_append, Hw, Hf | reflexivity |].
    rewrite append_nil_r in E. rewrite E.
    rewrite length_append. cbn [Nat.add].
    destruct (String.length whole + String.length fraction =? 0) eqn:Z;
      [apply Nat.eqb_eq in Z; lia|].
    eexists. split; [reflexivity | apply Pos].
  - destruct (readDigits_run whole ("." ++ fraction)) with (acc := 0%N) (n := 0)
      as [a E]; [exact Hw | reflexivity |].
    rewrite E. cbn [Nat.add].
    destruct (String.length whole =? 0) eqn:Z; [apply Nat.eqb_eq in Z; lia|].
    cbn [append]. change (Ascii.eqb "." ".") with true. cbv iota.
    destruct (readDigits_run fraction EmptyString Hf eq_refl a 0) as [b E2].
    rewrite append_nil_r in E2. rewrite E2.
    eexists. split; [reflexivity | apply Pos].
Qed.

Lemma readMetric_number (label : string) (tail : regex) (line : string)
      (v : JsNumber) :
  groupFree tail = true ->
  readMetric label
    (Seq (Lit label) (Seq (Star false Dot) (Seq numberGroup tail))) line = Some v ->
  exists q, v = Num q /\ (0 <= q)%Q.
Proof.
  intros Gt H. unfold readMetric in H.
  destruct (includes label line); [|discriminate].
  destruct (exec flag_i _ line) as [m|] eqn:E; [|discriminate].
  injection H as <-. unfold exec in E.
  apply searchFrom_sound in E as (pos & w & rest & M).
  apply Matches_metric_pattern in M as (n & Hc & N);
    [|apply groupFree_Lit|reflexivity|exact Gt].
  unfold group1. rewrite Hc. cbn [nth].
  destruct (parseFloat_numberText n N) as (q & -> & Hq). now exists q.
Qed.

Lemma reading_number (c : Category) (line : string) (v : JsNumber) :
  reading c line = Some v -> exists q, v = Num q /\ (0 <= q)%Q.
Proof.
  destruct c; cbn [reading]; unfold ratePattern, memoryPattern;
    apply readMetric_number; reflexivity.
Qed.

Lemma lastMatch_some {A : Type} (f : string -> option A) (lines : list string) (v : A) :
  Spec.lastMatch f lines = Some v -> exists l, In l lines /\ f l = Some v.
Proof.
  induction lines as [|l lines IH]; intros H; [discriminate|].
  cbn in H. destruct (Spec.lastMatch f lines) as [v0|] eqn:E.
  - injection H as <-. destruct (IH eq_refl) as (l0 & Hin & Hf).
    exists l0. split; [now right | exact Hf].
  - exists l. split; [now left | exact H].
Qed.

(** X14: a metric that [parseStructuredOutput] reports is a number and is
    not negative: what the pattern captures is always digits with at most
    one point, so [parseFloat] never gives NaN. *)
Theorem reported_metrics_are_numbers :
  forall (c : Category) (output : string) (v : JsNumber),
    field c (metrics (parseStructuredOutput output)) = Some v ->
    exists q, v = Num q /\ (0 <= q)%Q.
Proof.
  intros c output v H. unfold parseStructuredOutput in H. cbn [metrics] in H.
  rewrite field_fold_metricsStep in H.
  destruct (Spec.lastMatch (reading c) (split LF output)) as [v0|] eqn:E.
  - injection H as <-. apply lastMatch_some in E as (l & _ & Hl).
    now apply (reading_number c l).
  - destruct c; discriminate.
Qed.

Lemma reported_metrics_are_numbers_witness :
  exists q, Num (Qmake 125 10) = Num q /\ (0 <= q)%Q.
Proof.
  apply (reported_metrics_are_numbers Decode Scenarios.allMetrics).
  vm_compute. reflexivity.
Defined.

End MetricsFacts.

(* ------------------------------------------------------------------ *)
(** ** Where the text of an answer comes from *)

Module ProvenanceFacts.
Import JsString Regex Parser OutputShapes StringFacts RegexFacts ParserFacts.

(** *** Parts of a text *)

Lemma includes_refl (s : string) : includes s s = true.
Proof. apply includes_prefix, prefix_refl. Qed.

Lemma includes_decompose (x s : string) :
  includes x s = true -> exists a b, s = (a ++ x ++ b)%string.
Proof.
  induction s as [|c s IH]; intros H.
  - cbn [includes] in H. rewrite orb_false_r in H.
    exists EmptyString, EmptyString. destruct x; [reflexivity | discriminate].
  - rewrite includes_cons in H. apply orb_true_iff in H as [H|H].
    + exists EmptyString, (substringFrom (String.length x) (String c s)).
      now apply prefix_split.
    + destruct (IH H) as (a & b & ->). now exists (String c a), b.
Qed.

Lemma includes_compose (x a b : string) : includes x (a ++ x ++ b) = true.
Proof. apply includes_append_r, includes_append_l, includes_refl. Qed.

Lemma includes_trans (x y z : string) :
  includes x y = true -> includes y z = true -> includes x z = true.
Proof.
  intros H1 H2.
  apply includes_decompose in H1 as (a & b & ->).
  apply includes_decompose in H2 as (a' & b' & ->).
  replace (a' ++ (a ++ x ++ b) ++ b')%string
    with ((a' ++ a) ++ x ++ (b ++ b'))%string
    by now rewrite !append_assoc.
  apply includes_compose.
Qed.

Lemma includes_trimStart_self (l : string) : includes (trimStart l) l = true.
Proof.
  destruct (trimStart_suffix l) as [a Ha]. rewrite Ha at 2.
  apply includes_append_r, includes_refl.
Qed.

Lemma includes_trimEnd_self (l : string) : includes (trimEnd l) l = true.
Proof.
  destruct (trimEnd_prefix l) as [b Hb]. rewrite Hb at 2.
  apply includes_append_l, includes_refl.
Qed.

Lemma includes_substringFrom_self (n : nat) (l : string) :
  includes (substringFrom n l) l = true.
Proof.
  revert l. induction n as [|n IH]; intros l; [apply includes_refl|].
  destruct l as [|c l]; [reflexivity|].
  cbn [substringFrom]. rewrite includes_cons, IH. apply orb_true_r.
Qed.

(** *** Lines that come from the input *)

Section FromInput.

Variable src : list string.

Local Abbreviation good := (fromInput src).

Lemma partOfSomeLine_part (a b : string) :
  includes a b = true -> partOfSomeLine src b -> partOfSomeLine src a.
Proof.
  intros H (l0 & Hin & Hb). exists l0. split; [exact Hin|].
  now apply (includes_trans a b l0).
Qed.

Lemma fromInput_line (l : string) :
  In l src -> hasChar LF l = false -> nonBlank l = true -> good l.
Proof.
  intros Hin H1 H2. repeat split; [exact H1 | exact H2|].
  exists l. split; [exact Hin | apply includes_refl].
Qed.

Lemma fromInput_trimStart (l : string) : good l -> good (trimStart l).
Proof.
  intros (H1 & H2 & H3). repeat split.
  - now apply hasChar_trimStart.
  - rewrite nonBlank_allWhite, allWhite_trimStart, <- nonBlank_allWhite. exact H2.
  - apply (partOfSomeLine_part _ l); [apply includes_trimStart_self | exact H3].
Qed.

Lemma fromInput_trimEnd (l : string) : good l -> good (trimEnd l).
Proof.
  intros (H1 & H2 & H3). repeat split.
  - now apply hasChar_trimEnd.
  - rewrite nonBlank_allWhite, allWhite_trimEnd, <- nonBlank_allWhite. exact H2.
  - apply (partOfSomeLine_part _ l); [apply includes_trimEnd_self | exact H3].
Qed.

Lemma madeOf_intro (ls : list string) :
  (forall l, In l ls -> good l) -> madeOf src (join nl ls).
Proof. intros H. exists ls. split; [reflexivity | exact H]. Qed.

Lemma madeOf_empty : madeOf src EmptyString.
Proof. apply (madeOf_intro []). intros l []. Qed.

Lemma madeOf_line (l : string) : good l -> madeOf src l.
Proof. intros H. apply (madeOf_intro [l]). now intros x [<-|[]]. Qed.

Lemma madeOf_clean (ls : list string) :
  (forall l, In l ls -> good l) -> cleanLines ls.
Proof. intros H l Hl. destruct (H l Hl) as (H1 & H2 & _). now split. Qed.

Lemma madeOf_appendLine (r line : string) :
  madeOf src r -> good line -> madeOf src (appendLine r line).
Proof.
  intros (ls & -> & Hls) Hline. unfold appendLine.
  destruct (truthy (join nl ls)) eqn:T.
  - assert (Hne : ls <> []) by (intros ->; discriminate T).
    replace ((join nl ls ++ nl) ++ line)%string with (join nl (ls ++ [line]))
      by (rewrite join_snoc by exact Hne; now rewrite append_assoc).
    apply madeOf_intro. intros x Hx.
    apply in_app_or in Hx as [Hx|[<-|[]]]; [now apply Hls | exact Hline].
  - apply truthy_false in T. rewrite T. now apply madeOf_line.
Qed.

Lemma madeOf_checkMarkers (line : string) (st : scanState) :
  In line src -> hasChar LF line = false ->
  madeOf src (response st) ->
  forall markers, madeOf src (response (checkMarkers markers line st)).
Proof.
  intros Hin Hline Hst. induction markers as [|mk markers IH]; [exact Hst|].
  cbn [checkMarkers]. destruct (includes mk line); [|exact IH].
  cbv zeta. cbn [response].
  destruct (truthy (trim (substring _ line))) eqn:T; [|exact Hst].
  apply madeOf_line. repeat split.
  - apply hasChar_trim. unfold substring. now apply hasChar_substringFrom.
  - now apply nonBlank_trim.
  - exists line. split; [exact Hin|]. unfold substring.
    eapply includes_trans;
      [apply includes_trim, includes_refl | apply includes_substringFrom_self].
Qed.

Lemma madeOf_collectLine (i : nat) (line : string) (st : scanState) :
  In line src -> hasChar LF line = false ->
  madeOf src (response st) ->
  madeOf src (response (collectLine i line st)).
Proof.
  intros Hin Hline Hst. unfold collectLine. cbv zeta.
  destruct (inResponse st && (0 <? i)); [|exact Hst].
  destruct (negb (truthy (response st)) && negb (truthy (trim line)));
    [exact Hst|].
  destruct (truthy (trim line)) eqn:T; [|exact Hst].
  cbn [response]. apply (madeOf_appendLine (response st) line Hst).
  now apply fromInput_line.
Qed.

Lemma madeOf_scan (rest : list string) :
  (forall l, In l rest -> In l src /\ hasChar LF l = false) ->
  forall i st,
    madeOf src (response st) -> madeOf src (response (scan i rest st)).
Proof.
  induction rest as [|line rest IH]; intros Hrest i st Hst; [exact Hst|].
  rewrite scan_cons. destruct (hitsEndMarker line && inResponse st); [exact Hst|].
  destruct (Hrest line (or_introl eq_refl)) as [Hin Hline].
  apply IH; [intros; apply Hrest; now right|].
  apply madeOf_collectLine; [exact Hin | exact Hline|].
  now apply madeOf_checkMarkers.
Qed.

Lemma madeOf_collectUntilEnd (rest : list string) :
  (forall l, In l rest -> In l src /\ hasChar LF l = false) ->
  forall l, In l (collectUntilEnd rest) -> good l.
Proof.
  induction rest as [|line rest IH]; intros Hrest l Hl; [destruct Hl|].
  cbn [collectUntilEnd] in Hl. destruct (hitsEndMarker line); [destruct Hl|].
  assert (IH' := IH (fun x Hx => Hrest x (or_intror Hx))).
  destruct (truthy (trim line)) eqn:T; [|now apply IH'].
  destruct Hl as [<-|Hl]; [|now apply IH'].
  destruct (Hrest line (or_introl eq_refl)) as [Hin Hline].
  now apply fromInput_line.
Qed.

Lemma madeOf_trimStart (s : string) : madeOf src s -> madeOf src (trimStart s).
Proof.
  intros (ls & -> & Hls). destruct ls as [|l ls]; [apply madeOf_empty|].
  assert (Hl := Hls l (or_introl eq_refl)).
  assert (W : allWhite l = false).
  { destruct Hl as (_ & H2 & _). rewrite nonBlank_allWhite in H2.
    now destruct (allWhite l). }
  replace (trimStart (join nl (l :: ls))) with (join nl (trimStart l :: ls)).
  - apply madeOf_intro. intros x [<-|Hx];
      [now apply fromInput_trimStart | apply Hls; now right].
  - destruct ls as [|l2 ls]; [reflexivity|].
    rewrite !join_cons. symmetry. now apply trimStart_append.
Qed.

Lemma madeOf_trimEnd (ls : list string) :
  (forall l, In l ls -> good l) -> ls <> [] ->
  exists ls',
    trimEnd (join nl ls) = join nl ls'
    /\ (forall l, In l ls' -> good l) /\ ls' <> [].
Proof.
  induction ls as [|l ls IH]; intros Hls Hne; [contradiction|].
  assert (Hl := Hls l (or_introl eq_refl)).
  destruct ls as [|l2 ls].
  - exists [trimEnd l]. split; [reflexivity | split; [|discriminate]].
    intros x [<-|[]]. now apply fromInput_trimEnd.
  - assert (Hls' : forall x, In x (l2 :: ls) -> good x)
      by (intros x Hx; apply Hls; now right).
    destruct (IH Hls') as (ls' & E & Hc & Hn); [discriminate|].
    exists (l :: ls'). split; [|split].
    + rewrite join_cons.
      assert (W : allWhite (join nl (l2 :: ls)) = false)
        by (apply cleanLines_not_white; [now apply madeOf_clean | discriminate]).
      rewrite trimEnd_append
        by (rewrite allWhite_append, W; apply andb_false_r).
      rewrite (trimEnd_append nl) by exact W.
      rewrite E. destruct ls'; [contradiction | reflexivity].
    + intros x [<-|Hx]; [exact Hl | now apply Hc].
    + discriminate.
Qed.

Lemma madeOf_trim (s : string) : madeOf src s -> madeOf src (trim s).
Proof.
  intros H. apply madeOf_trimStart in H.
  unfold trim. destruct H as (ls & -> & Hls).
  destruct ls as [|l ls]; [apply madeOf_empty|].
  destruct (madeOf_trimEnd (l :: ls) Hls) as (ls' & -> & Hc & _); [discriminate|].
  now apply madeOf_intro.
Qed.

Lemma madeOf_replace (x s : string) :
  madeOf src s -> madeOf src (replace flag_s (perfPattern x) EmptyString s).
Proof.
  intros H. unfold perfPattern.
  destruct (replace_to_end (nl ++ x) s) as [->|(a & b & E & ->)]; [exact H|].
  destruct H as (ls & -> & Hls).
  unfold nl in E. cbn [append] in E.
  destruct (join_cut LF ls (fun l Hl => proj1 (Hls l Hl)) a _ E)
    as (ls' & -> & _ & Hsub).
  apply madeOf_intro. intros l Hl. now apply Hls, Hsub.
Qed.

Lemma madeOf_cleanup (labels : list string) :
  forall s,
    madeOf src s ->
    madeOf src
      (fold_left (fun resp pattern => trim (replace flag_s pattern EmptyString resp))
                 (map perfPattern labels) s).
Proof.
  induction labels as [|x labels IH]; intros s H; [exact H|].
  cbn [map fold_left]. now apply IH, madeOf_trim, madeOf_replace.
Qed.

End FromInput.

(** X15: the parser invents nothing: an answer other than the sentinel
    [No response generated] is made of lines that are each a part of a
    line of the output. *)
Theorem parse_answer_comes_from_the_output :
  forall output : string,
    parseLiteRTOutput output = noResponse
    \/ Forall (fun line =>
                 Exists (fun source => includes line source = true)
                        (split LF output))
              (split LF (parseLiteRTOutput output)).
Proof.
  intros output.
  assert (Hlines : forall l, In l (split LF output) -> hasChar LF l = false)
    by (intros l; apply split_no_sep).
  unfold parseLiteRTOutput. cbv zeta.
  set (lines := split LF output) in *.
  set (start := startIndex lines).
  set (st := scan start (skipn start lines) initialState).
  set (raw := if negb (foundResponseMarker st) && (start <? List.length lines)
              then join nl (collectUntilEnd (skipn start lines))
              else response st).
  assert (Hrest : forall l, In l (skipn start lines) ->
                            In l lines /\ hasChar LF l = false).
  { intros l Hl. apply In_skipn in Hl. split; [exact Hl | now apply Hlines]. }
  assert (Hraw : madeOf lines raw).
  { unfold raw.
    destruct (negb (foundResponseMarker st) && (start <? List.length lines)).
    - apply madeOf_intro. now apply madeOf_collectUntilEnd.
    - apply madeOf_scan; [exact Hrest | apply madeOf_empty]. }
  change perfPatterns with (map perfPattern perfLabels).
  pose proof (madeOf_cleanup lines perfLabels (trim raw)
                (madeOf_trim lines raw Hraw)) as Hclean.
  match goal with
  | |- context [if truthy ?c then ?c else noResponse] => destruct (truthy c) eqn:T
  end; [right | now left].
  destruct Hclean as (ls & E & Hls). rewrite E in T |- *.
  assert (Hne : ls <> []) by (intros ->; discriminate T).
  unfold nl. rewrite split_join; [|exact Hne|intros l Hl; now apply Hls].
  apply Forall_forall. intros l Hl.
  destruct (Hls l Hl) as (_ & _ & (l0 & Hin & Hinc)).
  apply Exists_exists. now exists l0.
Qed.

End ProvenanceFacts.
